(** * Decoding strategies and the generation loop of [decoding.ipynb]

    A shallow embedding of the notebook's [TextGenerator] and of its five
    [DecodingStrategy] classes, followed by the properties proved of them.

    Modelling choices.
    - A probability tensor is a [list Q]: the arithmetic of the strategies
      (sums, comparisons, one division) is carried out in exact rationals.
    - A token index is a [nat]; the integer parameters [k] and [max_steps]
      are [Z], because the code accepts (and slices or compares with)
      negative values.
    - [torch.sort(probs, descending=True)] is a sort of the (value, index)
      pairs by value descending, equal values by index ascending.
    - [probs.multinomial(num_samples=1)] draws with an explicit uniform
      number [u] in [0,1), by inversion of the cumulative weights.
    - Python exceptions are the [Raised] results of [outcome]. *)

From Stdlib Require Import String List Bool Arith ZArith QArith Lia Lqa.
From Stdlib Require Import Permutation Sorted Orders Mergesort.
Import ListNotations.

Set Implicit Arguments.

(** ** Results of fallible code *)

Inductive exn : Type :=
| IndexError
| RuntimeError.

Inductive outcome (A : Type) : Type :=
| Returned (a : A)
| Raised (e : exn).

Arguments Returned {A} a.
Arguments Raised {A} e.

Definition bind {A B : Type} (m : outcome A) (f : A -> outcome B) : outcome B :=
  match m with
  | Returned a => f a
  | Raised e => Raised e
  end.

Notation "x <- m ;; k" := (bind m (fun x => k))
  (at level 61, m at next level, right associativity).

Definition is_raised {A : Type} (m : outcome A) : bool :=
  match m with
  | Returned _ => false
  | Raised _ => true
  end.

(** ** Tensor operations used by the strategies *)

Definition Token : Type := nat.

Local Open Scope Q_scope.

Definition Qgt_bool (a b : Q) : bool := negb (Qle_bool a b).

(** [probs.sum()] *)
Definition tensor_sum (probs : list Q) : Q := fold_right Qplus 0 probs.

(** Each entry paired with its index. *)
Definition enumerate (probs : list Q) : list (Q * nat) :=
  combine probs (seq 0 (length probs)).

(** The order of [torch.sort(_, descending=True)] on (value, index) pairs. *)
Module ProbDesc <: Orders.TotalLeBool.
Definition t : Type := (Q * nat)%type.
Definition leb (a b : t) : bool :=
  if Qeq_bool (fst a) (fst b) then Nat.leb (snd a) (snd b)
  else Qle_bool (fst b) (fst a).
Theorem leb_total : forall a b, leb a b = true \/ leb b a = true.
Proof.
  intros [x i] [y j]; unfold leb; simpl.
  destruct (Qeq_bool x y) eqn:E.
  - assert (E' : Qeq_bool y x = true).
    { apply Qeq_bool_iff. symmetry. now apply Qeq_bool_iff. }
    rewrite E'. destruct (Nat.leb_spec i j); [now left|right].
    apply Nat.leb_le. lia.
  - assert (E' : Qeq_bool y x = false).
    { destruct (Qeq_bool y x) eqn:F; [|reflexivity].
      apply Qeq_bool_iff in F. symmetry in F. apply Qeq_bool_iff in F.
      congruence. }
    rewrite E'. destruct (Qle_bool y x) eqn:L; [now left|right].
    apply Qle_bool_iff. destruct (Qlt_le_dec x y) as [H|H].
    + now apply Qlt_le_weak.
    + apply Qle_bool_iff in H. congruence.
Qed.
End ProbDesc.

Module ProbSort := Sort ProbDesc.

(** [sorted_probs, sorted_indices = torch.sort(probs, descending=True)] *)
Definition torch_sort_desc (probs : list Q) : list Q * list nat :=
  let s := ProbSort.sort (enumerate probs) in
  (map fst s, map snd s).

(** [torch.cumsum(sorted_probs, dim=-1)] *)
Fixpoint cumsum_from (acc : Q) (l : list Q) : list Q :=
  match l with
  | [] => []
  | x :: r => (acc + x) :: cumsum_from (acc + x) r
  end.

Definition cumsum (l : list Q) : list Q := cumsum_from 0 l.

(** [mask[0] = False]; an [IndexError] on an empty tensor. *)
Definition set_first_false (mask : list bool) : outcome (list bool) :=
  match mask with
  | [] => Raised IndexError
  | _ :: r => Returned (false :: r)
  end.

(** [sorted_indices[mask == True]] *)
Definition masked_select (idxs : list nat) (mask : list bool) : list nat :=
  map fst (filter snd (combine idxs mask)).

(** [sorted_indices[k:]] with Python's reading of a negative start. *)
Definition py_slice_from (k : Z) (l : list nat) : list nat :=
  if (k <? 0)%Z
  then skipn (Z.to_nat (Z.max 0 (Z.of_nat (length l) + k))) l
  else skipn (Z.to_nat k) l.

(** [probs[idxs] = 0.0] *)
Definition index_fill_zero (probs : list Q) (idxs : list nat) : list Q :=
  map (fun xi => if existsb (Nat.eqb (snd xi)) idxs then 0 else fst xi)
      (enumerate probs).

(** [probs / probs.sum()].  Dividing a non-empty tensor by a zero sum
    yields a tensor of NaN entries, which is the result [None]; every later
    tensor operation keeps it NaN. *)
Definition div_by_sum (probs : list Q) : option (list Q) :=
  let s := tensor_sum probs in
  if Qeq_bool s 0
  then match probs with [] => Some [] | _ :: _ => None end
  else Some (map (fun x => x / s) probs).

(** Inversion of the cumulative weights: the first index whose running
    weight exceeds the target. *)
Fixpoint inverse_cdf (probs : list Q) (target : Q) (i : nat) : outcome Token :=
  match probs with
  | [] => Raised RuntimeError
  | x :: r =>
      if Qgt_bool x target then Returned i
      else inverse_cdf r (target - x) (S i)
  end.

(** [probs.multinomial(num_samples=1)]: it raises on a tensor with a NaN or
    negative entry or without positive mass, and otherwise draws an index
    with the uniform number [u]. *)
Definition multinomial (probs : option (list Q)) (u : Q) : outcome Token :=
  match probs with
  | None => Raised RuntimeError
  | Some w =>
      if existsb (fun x => Qgt_bool 0 x) w || Qle_bool (tensor_sum w) 0
      then Raised RuntimeError
      else inverse_cdf w (u * tensor_sum w) 0
  end.

(** [probs.argmax()]: the first index of the greatest entry. *)
Fixpoint argmax_from (best : Q) (besti : nat) (i : nat) (l : list Q) : nat :=
  match l with
  | [] => besti
  | x :: r =>
      if Qgt_bool x best then argmax_from x i (S i) r
      else argmax_from best besti (S i) r
  end.

Definition argmax (probs : list Q) : outcome Token :=
  match probs with
  | [] => Raised RuntimeError
  | x :: r => Returned (argmax_from x 0%nat 1%nat r)
  end.

(** ** The decoding strategies *)

Inductive DecodingStrategy : Type :=
| GreedyDecoding
| RandomDecoding
| TopKDecoding (k : Z)
| TopPDecoding (p : Q)
| TopKTopPDecoding (k : Z) (p : Q).

(** The constructors [__init__] only store their arguments. *)
Definition TopKDecoding_init (k : Z) : outcome DecodingStrategy :=
  Returned (TopKDecoding k).

Definition TopPDecoding_init (p : Q) : outcome DecodingStrategy :=
  Returned (TopPDecoding p).

Definition TopKTopPDecoding_init (k : Z) (p : Q) : outcome DecodingStrategy :=
  Returned (TopKTopPDecoding k p).

Definition GreedyDecoding_sample (probs : list Q) : outcome Token :=
  argmax probs.

Definition RandomDecoding_sample (probs : list Q) (u : Q) : outcome Token :=
  multinomial (Some probs) u.

(** [TopKDecoding.sample] up to the zeroing of the entries outside the top k. *)
Definition TopK_truncate (k : Z) (probs : list Q) : list Q :=
  let '(_, sorted_indices) := torch_sort_desc probs in
  index_fill_zero probs (py_slice_from k sorted_indices).

(** The tensor [TopKDecoding.sample] draws from. *)
Definition TopK_dist (k : Z) (probs : list Q) : option (list Q) :=
  div_by_sum (TopK_truncate k probs).

Definition TopKDecoding_sample (k : Z) (probs : list Q) (u : Q) : outcome Token :=
  multinomial (TopK_dist k probs) u.

(** The mask [idx_to_suppress] of [TopPDecoding.sample], in sorted order. *)
Definition TopP_mask (p : Q) (probs : list Q) : outcome (list bool) :=
  let '(sorted_probs, _) := torch_sort_desc probs in
  let cumulative_probs := cumsum sorted_probs in
  let idx_to_suppress := map (fun c => Qgt_bool c p) cumulative_probs in
  set_first_false idx_to_suppress.

(** [TopPDecoding.sample] up to the zeroing of the suppressed entries. *)
Definition TopP_truncate (p : Q) (probs : list Q) : outcome (list Q) :=
  let '(_, sorted_indices) := torch_sort_desc probs in
  idx_to_suppress <- TopP_mask p probs ;;
  Returned (index_fill_zero probs (masked_select sorted_indices idx_to_suppress)).

(** The tensor [TopPDecoding.sample] draws from. *)
Definition TopP_dist (p : Q) (probs : list Q) : outcome (option (list Q)) :=
  t <- TopP_truncate p probs ;;
  Returned (div_by_sum t).

Definition TopPDecoding_sample (p : Q) (probs : list Q) (u : Q) : outcome Token :=
  d <- TopP_dist p probs ;;
  multinomial d u.

(** The tensor [TopKTopPDecoding.sample] draws from: the body of the
    method, its top-k part and then its top-p part on the renormalised
    tensor.  A NaN tensor after the first division stays NaN through the
    second part (no comparison with NaN holds, so nothing more is zeroed). *)
Definition TopKTopP_dist (k : Z) (p : Q) (probs : list Q)
  : outcome (option (list Q)) :=
  let '(_, sorted_indices) := torch_sort_desc probs in
  let probs1 := index_fill_zero probs (py_slice_from k sorted_indices) in
  match div_by_sum probs1 with
  | None => Returned None
  | Some probs2 =>
      let '(sorted_probs, sorted_indices2) := torch_sort_desc probs2 in
      let cumulative_probs := cumsum sorted_probs in
      let idx_to_suppress := map (fun c => Qgt_bool c p) cumulative_probs in
      idx_to_suppress <- set_first_false idx_to_suppress ;;
      let probs3 :=
        index_fill_zero probs2 (masked_select sorted_indices2 idx_to_suppress) in
      Returned (div_by_sum probs3)
  end.

Definition TopKTopPDecoding_sample (k : Z) (p : Q) (probs : list Q) (u : Q)
  : outcome Token :=
  d <- TopKTopP_dist k p probs ;;
  multinomial d u.

(** [decoding_strategy.sample(probs)], dispatched on the class. *)
Definition sample (s : DecodingStrategy) (probs : list Q) (u : Q) : outcome Token :=
  match s with
  | GreedyDecoding => GreedyDecoding_sample probs
  | RandomDecoding => RandomDecoding_sample probs u
  | TopKDecoding k => TopKDecoding_sample k probs u
  | TopPDecoding p => TopPDecoding_sample p probs u
  | TopKTopPDecoding k p => TopKTopPDecoding_sample k p probs u
  end.

(** The indices a tensor gives positive mass: the candidates of the draw. *)
Definition candidates (probs : list Q) : list nat :=
  map snd (filter (fun xi => Qgt_bool (fst xi) 0) (enumerate probs)).

(** The candidates of the tensor a strategy draws from, when it has one. *)
Definition dist_candidates (d : outcome (option (list Q))) : option (list nat) :=
  match d with
  | Returned (Some w) => Some (candidates w)
  | _ => None
  end.

(** The composition the combined strategy is compared with: the tensor
    [TopKDecoding(k)] draws from, handed to [TopPDecoding(p)] as its input.
    A NaN tensor handed over stays NaN. *)
Definition TopK_then_TopP_dist (k : Z) (p : Q) (probs : list Q)
  : outcome (option (list Q)) :=
  match TopK_dist k probs with
  | None => Returned None
  | Some renormalized => TopP_dist p renormalized
  end.

(** Where [l[k:]] starts in a list of length [n]: Python counts a
    negative [k] from the end and never starts before 0. *)
Definition slice_start (k : Z) (n : nat) : nat :=
  if (k <? 0)%Z then Z.to_nat (Z.max 0 (Z.of_nat n + k)) else Z.to_nat k.

(** The mass left by a mask over sorted (value, index) pairs: the values at
    the positions the mask does not suppress. *)
Fixpoint kept_mass (l : list (Q * nat)) (mask : list bool) : Q :=
  match l, mask with
  | (v, _) :: l', b :: mask' => (if b then 0 else v) + kept_mass l' mask'
  | _, _ => 0
  end.

(** All the mass of [probs] is on the index [i]. *)
Definition all_mass_on (i : nat) (probs : list Q) : Prop :=
  (i < length probs)%nat /\
  forall j, (j < length probs)%nat ->
            nth j probs 0 == (if (j =? i)%nat then 1 else 0).

(** The strategies whose [k], when they have one, is at least 1. *)
Definition positive_k (s : DecodingStrategy) : Prop :=
  match s with
  | TopKDecoding k | TopKTopPDecoding k _ => (1 <= k)%Z
  | _ => True
  end.

(** ** The generation loop *)

(** What one iteration of the [while] loop of [generate] did: the input [x]
    it found, whether it issued the warning, the tensor passed to the model,
    and the result of the strategy's [sample]. *)
Record step_log : Type := {
  seen_input : list Token;
  warned : bool;
  view : list Token;
  sampled : outcome Token
}.

(** The local variables of [generate], and the log of its iterations. *)
Record loop_state : Type := {
  st_x : list Token;
  running_out : list (list Token);
  step_count : Z;
  max_length_warning_triggered : bool;
  steps : list step_log
}.

Section TextGenerator.

(** The collaborators held by a [TextGenerator]. *)
Variable Logits : Type.
(** [model(x).logits[0, -1]] *)
Variable model : list Token -> Logits.
(** [F.softmax(logits / temperature, dim=0)] *)
Variable softmax : Logits -> Q -> list Q.
Variable tokenizer_encode : string -> list Token.
Variable tokenizer_decode : list Token -> string.
(** [self.decoding_strategy.sample], with the uniform number of its draw. *)
Variable decoding_strategy : list Q -> Q -> outcome Token.
Variable eos_idx : Token.
Variable max_input_length : nat.
(** The random source: the number drawn at each step. *)
Variable rand : nat -> Q.

(** [x[:, x.size(1)-self.max_input_length:]] *)
Definition most_recent (x : list Token) : list Token :=
  skipn (length x - max_input_length) x.

(** Whether the clamp applies to an input: it is longer than the model
    accepts. *)
Definition exceeds (x : list Token) : bool :=
  (max_input_length <? length x)%nat.

(** The tokens that logged steps appended to the record: the sampled
    tokens other than the end-of-sequence index. *)
Definition appended (log : list step_log) : list Token :=
  flat_map (fun entry =>
              match sampled entry with
              | Returned t => if (t =? eos_idx)%nat then [] else [t]
              | Raised _ => []
              end) log.

Section Loop.

Variable max_steps : Z.
Variable temperature : Q.

(** The shape of the log of a run that starts at step number [step] with
    the full record [record] and the warning flag [triggered]; stated for
    the proofs. *)
Fixpoint consistent_log (step : nat) (record : list Token) (triggered : bool)
         (log : list step_log) : Prop :=
  match log with
  | [] => True
  | entry :: rest =>
      seen_input entry = record /\
      view entry = (if exceeds record then most_recent record else record) /\
      warned entry = exceeds record && negb triggered /\
      sampled entry =
        decoding_strategy (softmax (model (view entry)) temperature)
                          (rand step) /\
      (rest <> [] -> exists t, sampled entry = Returned t /\ t <> eos_idx) /\
      consistent_log (S step) (record ++ appended [entry])
                     (exceeds record || triggered) rest
  end.

(** The [while step_count < max_steps] loop; [fuel] bounds the number
    of iterations, and the second component is the exception that
    ended the loop, if one did. *)
Fixpoint generate_loop (fuel : nat) (st : loop_state)
  : loop_state * option exn :=
  match fuel with
  | O => (st, None)
  | S fuel' =>
      if (step_count st <? max_steps)%Z then
        let clamp := (max_input_length <? length (st_x st))%nat in
        let warn := clamp && negb (max_length_warning_triggered st) in
        let x := if clamp then most_recent (st_x st) else st_x st in
        let triggered :=
          if clamp then true else max_length_warning_triggered st in
        let probs := softmax (model x) temperature in
        let r := decoding_strategy probs (rand (Z.to_nat (step_count st))) in
        let entry := {| seen_input := st_x st; warned := warn;
                        view := x; sampled := r |} in
        match r with
        | Raised e =>
            ({| st_x := x; running_out := running_out st;
                step_count := step_count st;
                max_length_warning_triggered := triggered;
                steps := steps st ++ [entry] |}, Some e)
        | Returned token_idx =>
            if (token_idx =? eos_idx)%nat then
              ({| st_x := x; running_out := running_out st;
                  step_count := step_count st;
                  max_length_warning_triggered := triggered;
                  steps := steps st ++ [entry] |}, None)
            else
              let running_out' := running_out st ++ [[token_idx]] in
              generate_loop fuel'
                {| st_x := concat running_out';
                   running_out := running_out';
                   step_count := (step_count st + 1)%Z;
                   max_length_warning_triggered := triggered;
                   steps := steps st ++ [entry] |}
        end
      else (st, None)
  end.

(** The state in which [generate] enters its loop. *)
Definition initial_state (prompt : string) : loop_state :=
  let x := tokenizer_encode prompt in
  {| st_x := x; running_out := [x]; step_count := 0%Z;
     max_length_warning_triggered := false; steps := [] |}.

(** The run of the loop of [generate(prompt, max_steps, temperature)]. *)
Definition generate_run (prompt : string) : loop_state * option exn :=
  generate_loop (Z.to_nat max_steps) (initial_state prompt).

(** [TextGenerator.generate] *)
Definition generate (prompt : string) : outcome string :=
  match generate_run prompt with
  | (st, None) => Returned (tokenizer_decode (concat (running_out st)))
  | (_, Some e) => Raised e
  end.

(** The tensors the model was invoked on, in order. *)
Definition model_invocations (prompt : string) : list (list Token) :=
  map view (steps (fst (generate_run prompt))).

(** The steps at which the warning was issued. *)
Definition warnings (prompt : string) : list step_log :=
  filter warned (steps (fst (generate_run prompt))).

End Loop.

End TextGenerator.

(** ** Stubs of the collaborators, for concrete runs *)

Module Stub.

(** A tokenizer with one token per character. *)
Definition encode (s : string) : list Token :=
  map Ascii.nat_of_ascii (list_ascii_of_string s).

Definition decode (l : list Token) : string :=
  string_of_list_ascii (map Ascii.ascii_of_nat l).

(** A model whose last-position output is fixed, and already a probability
    tensor; its softmax leaves the tensor as it is. *)
Definition model (probs : list Q) (x : list Token) : list Q := probs.

Definition softmax (logits : list Q) (temperature : Q) : list Q := logits.

(** A random source that always draws 1/2. *)
Definition rand (step : nat) : Q := 1#2.

(** [TextGenerator(model, tokenizer, strategy).generate], with the model's
    fixed output, the end-of-sequence index and the maximum input length. *)
Definition generate (probs : list Q) (s : DecodingStrategy) (eos_idx : Token)
           (max_input_length : nat) (max_steps : Z) (temperature : Q)
           (prompt : string) : outcome string :=
  generate (model probs) softmax encode decode (sample s) eos_idx
           max_input_length rand max_steps temperature prompt.

Definition generate_run (probs : list Q) (s : DecodingStrategy) (eos_idx : Token)
           (max_input_length : nat) (max_steps : Z) (temperature : Q)
           (prompt : string) : loop_state * option exn :=
  generate_run (model probs) softmax encode (sample s) eos_idx
               max_input_length rand max_steps temperature prompt.

End Stub.

(** * Properties *)

(** ** Comparisons on rationals *)

Lemma Qgt_bool_true (a b : Q) : Qgt_bool a b = true <-> b < a.
Proof.
  unfold Qgt_bool. rewrite negb_true_iff. split; intro H.
  - apply Qnot_le_lt. intro L. apply Qle_bool_iff in L. congruence.
  - destruct (Qle_bool a b) eqn:E; [|reflexivity].
    apply Qle_bool_iff in E. lra.
Qed.

Lemma Qgt_bool_false (a b : Q) : Qgt_bool a b = false <-> a <= b.
Proof.
  unfold Qgt_bool. rewrite negb_false_iff. apply Qle_bool_iff.
Qed.

Lemma Qgt_bool_compat (a a' b b' : Q) :
  a == a' -> b == b' -> Qgt_bool a b = Qgt_bool a' b'.
Proof.
  intros Ha Hb. destruct (Qgt_bool a' b') eqn:E.
  - apply Qgt_bool_true in E. apply Qgt_bool_true. lra.
  - apply Qgt_bool_false in E. apply Qgt_bool_false. lra.
Qed.

(** ** Greedy decoding *)

Lemma argmax_from_spec (l pre : list Q) (best : Q) (besti i : nat) :
  i = length pre ->
  (besti < i)%nat ->
  nth besti pre 0 = best ->
  (forall j, (j < i)%nat -> nth j pre 0 <= best) ->
  (forall j, (j < besti)%nat -> nth j pre 0 < best) ->
  let r := argmax_from best besti i l in
  (r < length (pre ++ l))%nat /\
  (forall j, (j < length (pre ++ l))%nat ->
             nth j (pre ++ l) 0 <= nth r (pre ++ l) 0) /\
  (forall j, (j < r)%nat -> nth j (pre ++ l) 0 < nth r (pre ++ l) 0).
Proof.
  revert pre best besti i.
  induction l as [|x l IH]; intros pre best besti i Hi Hlt Hbest Hmax Hfirst;
    simpl.
  - rewrite app_nil_r. rewrite Hbest. subst i. auto.
  - assert (Hlen : S i = length (pre ++ [x]))
      by (rewrite length_app; simpl; lia).
    replace (pre ++ x :: l) with ((pre ++ [x]) ++ l)
      by (rewrite <- app_assoc; reflexivity).
    destruct (Qgt_bool x best) eqn:E.
    + apply Qgt_bool_true in E.
      apply IH; trivial.
      * lia.
      * rewrite app_nth2 by lia. subst i. now rewrite Nat.sub_diag.
      * intros j Hj.
        destruct (Nat.eq_dec j i) as [->|Hne].
        -- rewrite app_nth2 by lia. subst i. rewrite Nat.sub_diag. simpl. lra.
        -- rewrite app_nth1 by lia. specialize (Hmax j ltac:(lia)). lra.
      * intros j Hj. rewrite app_nth1 by lia.
        specialize (Hmax j Hj). lra.
    + apply Qgt_bool_false in E.
      apply IH; trivial.
      * lia.
      * now rewrite app_nth1 by lia.
      * intros j Hj.
        destruct (Nat.eq_dec j i) as [->|Hne].
        -- rewrite app_nth2 by lia. subst i. rewrite Nat.sub_diag. simpl.
           exact E.
        -- rewrite app_nth1 by lia. apply Hmax. lia.
      * intros j Hj. rewrite app_nth1 by lia. now apply Hfirst.
Qed.

Lemma argmax_from_compat (l l' : list Q) :
  Forall2 Qeq l l' ->
  forall best best' besti i, best == best' ->
  argmax_from best besti i l = argmax_from best' besti i l'.
Proof.
  induction 1 as [|x x' l l' Hx Hl IH]; intros best best' besti i Hb; simpl.
  - reflexivity.
  - rewrite (Qgt_bool_compat Hx Hb).
    destruct (Qgt_bool x' best'); now apply IH.
Qed.

Lemma argmax_first_maximum (probs : list Q) :
  probs <> [] ->
  exists i : Token,
    argmax probs = Returned i /\
    (i < length probs)%nat /\
    (forall j, (j < length probs)%nat -> nth j probs 0 <= nth i probs 0) /\
    (forall j, (j < i)%nat -> nth j probs 0 < nth i probs 0).
Proof.
  intro Hne. destruct probs as [|x l]; [congruence|].
  exists (argmax_from x 0%nat 1%nat l). split; [reflexivity|].
  apply (@argmax_from_spec l [x] x 0%nat 1%nat); simpl; auto.
  - intros j Hj. assert (j = 0%nat) as -> by lia. simpl. lra.
  - intros j Hj. lia.
Qed.

Lemma argmax_compat (probs probs' : list Q) :
  Forall2 Qeq probs probs' -> argmax probs = argmax probs'.
Proof.
  intro H. destruct H as [|x x' l l' Hx Hl]; [reflexivity|].
  simpl. apply f_equal. now apply argmax_from_compat.
Qed.

(** C9. [GreedyDecoding.sample] returns the first (lowest) index at which
    [probs] is greatest: the entry there is at least every entry and
    strictly greater than every earlier one.  Numerically equal inputs give
    the same index, and on [0.1, 0.7, 0.2] the index is 1. *)
Theorem GreedyDecoding_first_maximum :
  (forall probs probs' : list Q,
      probs <> [] -> Forall2 Qeq probs probs' ->
      exists i : Token,
        GreedyDecoding_sample probs = Returned i /\
        GreedyDecoding_sample probs' = Returned i /\
        (i < length probs)%nat /\
        (forall j, (j < length probs)%nat -> nth j probs 0 <= nth i probs 0) /\
        (forall j, (j < i)%nat -> nth j probs 0 < nth i probs 0)) /\
  GreedyDecoding_sample [1#10; 7#10; 2#10] = Returned 1%nat.
Proof.
  split; [|reflexivity].
  intros probs probs' Hne Heq. unfold GreedyDecoding_sample.
  destruct (argmax_first_maximum Hne) as (i & Hi & Hrest).
  exists i. split; [exact Hi|]. split; [|exact Hrest].
  now rewrite <- (argmax_compat Heq).
Qed.

Lemma GreedyDecoding_first_maximum_witness :
  [7#10; 7#10; 2#10] <> [] /\
  exists i : Token,
    GreedyDecoding_sample [7#10; 7#10; 2#10] = Returned i /\
    GreedyDecoding_sample [14#20; 7#10; 1#5] = Returned i /\
    (i < 3)%nat /\
    (forall j, (j < 3)%nat ->
               nth j [7#10; 7#10; 2#10] 0 <= nth i [7#10; 7#10; 2#10] 0) /\
    (forall j, (j < i)%nat ->
               nth j [7#10; 7#10; 2#10] 0 < nth i [7#10; 7#10; 2#10] 0).
Proof.
  split; [discriminate|].
  apply (proj1 GreedyDecoding_first_maximum [7#10; 7#10; 2#10]
           [14#20; 7#10; 1#5]); [discriminate|].
  repeat constructor; reflexivity.
Defined.

(** ** Enumeration and sorting *)

Lemma combine_seq_nth (l : list Q) (s j : nat) :
  (j < length l)%nat ->
  nth j (combine l (seq s (length l))) (0, 0%nat) = (nth j l 0, (s + j)%nat).
Proof.
  intro Hj. rewrite combine_nth by (now rewrite length_seq).
  now rewrite seq_nth.
Qed.

Lemma enumerate_length (probs : list Q) :
  length (enumerate probs) = length probs.
Proof.
  unfold enumerate. rewrite length_combine, length_seq. lia.
Qed.

Lemma enumerate_nth (probs : list Q) (j : nat) :
  (j < length probs)%nat ->
  nth j (enumerate probs) (0, 0%nat) = (nth j probs 0, j).
Proof.
  intro Hj. unfold enumerate. now rewrite combine_seq_nth.
Qed.

Lemma enumerate_In (probs : list Q) (v : Q) (i : nat) :
  In (v, i) (enumerate probs) <->
  (i < length probs)%nat /\ nth i probs 0 = v.
Proof.
  split.
  - intro H. apply (In_nth _ _ (0, 0%nat)) in H. destruct H as (j & Hj & E).
    rewrite enumerate_length in Hj. rewrite enumerate_nth in E by assumption.
    inversion E; subst. auto.
  - intros [Hi E]. rewrite <- E, <- (enumerate_nth probs Hi).
    apply nth_In. now rewrite enumerate_length.
Qed.

Lemma map_fst_combine_seq (l : list Q) (s : nat) :
  map fst (combine l (seq s (length l))) = l.
Proof.
  revert s. induction l as [|x l IH]; intro s; simpl; [reflexivity|].
  now rewrite IH.
Qed.

Lemma map_snd_combine_seq (l : list Q) (s : nat) :
  map snd (combine l (seq s (length l))) = seq s (length l).
Proof.
  revert s. induction l as [|x l IH]; intro s; simpl; [reflexivity|].
  now rewrite IH.
Qed.

Lemma leb_true_iff (a b : Q * nat) :
  ProbDesc.leb a b = true <->
  (fst a == fst b /\ (snd a <= snd b)%nat) \/ fst b < fst a.
Proof.
  unfold ProbDesc.leb. destruct (Qeq_bool (fst a) (fst b)) eqn:E.
  - apply Qeq_bool_iff in E. rewrite Nat.leb_le. split.
    + intro H. left. auto.
    + intros [[_ H]|H]; [assumption|lra].
  - apply Qeq_bool_neq in E. rewrite Qle_bool_iff. split.
    + intro H. right.
      destruct (Qlt_le_dec (fst b) (fst a)) as [L|L]; [assumption|].
      exfalso. apply E. lra.
    + intros [[H _]|H]; [contradiction|lra].
Qed.

Lemma leb_transitive : Transitive (fun a b => is_true (ProbDesc.leb a b)).
Proof.
  intros a b c Hab Hbc. unfold is_true in *.
  rewrite leb_true_iff in *.
  destruct Hab as [[Hab Hab']|Hab], Hbc as [[Hbc Hbc']|Hbc].
  - left. split; [lra|lia].
  - right. lra.
  - right. lra.
  - right. lra.
Qed.

Lemma sort_strongly_sorted (probs : list Q) :
  StronglySorted (fun a b => is_true (ProbDesc.leb a b))
                 (ProbSort.sort (enumerate probs)).
Proof.
  apply ProbSort.StronglySorted_sort. exact leb_transitive.
Qed.

Lemma sorted_indices_perm (probs : list Q) :
  Permutation (seq 0 (length probs)) (snd (torch_sort_desc probs)).
Proof.
  unfold torch_sort_desc; simpl.
  rewrite <- (map_snd_combine_seq probs 0).
  apply Permutation_map. apply ProbSort.Permuted_sort.
Qed.

Lemma sorted_probs_perm (probs : list Q) :
  Permutation probs (fst (torch_sort_desc probs)).
Proof.
  unfold torch_sort_desc; simpl.
  rewrite <- (map_fst_combine_seq probs 0) at 1.
  apply Permutation_map. apply ProbSort.Permuted_sort.
Qed.

Lemma sorted_indices_NoDup (probs : list Q) :
  NoDup (snd (torch_sort_desc probs)).
Proof.
  eapply Permutation_NoDup; [apply sorted_indices_perm|apply seq_NoDup].
Qed.

Lemma sorted_lengths (probs : list Q) :
  length (fst (torch_sort_desc probs)) = length probs /\
  length (snd (torch_sort_desc probs)) = length probs.
Proof.
  split.
  - symmetry. apply Permutation_length, sorted_probs_perm.
  - rewrite <- (Permutation_length (sorted_indices_perm probs)).
    apply length_seq.
Qed.

(** The first pair of the sorted order carries a greatest entry of [probs]. *)
Lemma sort_head_max (probs : list Q) (v0 : Q) (i0 : nat) (r : list (Q * nat)) :
  ProbSort.sort (enumerate probs) = (v0, i0) :: r ->
  (i0 < length probs)%nat /\ nth i0 probs 0 = v0 /\
  (forall j, (j < length probs)%nat -> nth j probs 0 <= v0) /\
  ~ In i0 (map snd r).
Proof.
  intro E.
  assert (P := ProbSort.Permuted_sort (enumerate probs)). rewrite E in P.
  assert (S := sort_strongly_sorted probs). rewrite E in S.
  assert (Hin : In (v0, i0) (enumerate probs)).
  { eapply Permutation_in; [symmetry; exact P|now left]. }
  apply enumerate_In in Hin. destruct Hin as [Hi Hv].
  repeat split; trivial.
  - intros j Hj.
    assert (Hj' : In (nth j probs 0, j) ((v0, i0) :: r)).
    { eapply Permutation_in; [exact P|]. apply enumerate_In. auto. }
    destruct Hj' as [Hj'|Hj'].
    + inversion Hj'. lra.
    + apply StronglySorted_inv in S. destruct S as [_ F].
      rewrite Forall_forall in F. specialize (F _ Hj').
      unfold is_true in F. rewrite leb_true_iff in F. simpl in F.
      destruct F as [[F _]|F]; lra.
  - assert (N := sorted_indices_NoDup probs).
    unfold torch_sort_desc in N; simpl in N. rewrite E in N. simpl in N.
    now inversion N.
Qed.

Lemma sort_nonempty (probs : list Q) :
  probs <> [] -> exists v0 i0 r, ProbSort.sort (enumerate probs) = (v0, i0) :: r.
Proof.
  intro Hne. destruct (ProbSort.sort (enumerate probs)) as [|[v0 i0] r] eqn:E.
  - exfalso. apply Hne.
    assert (L := Permutation_length (ProbSort.Permuted_sort (enumerate probs))).
    rewrite E, enumerate_length in L. now apply length_zero_iff_nil.
  - eauto.
Qed.

(** ** Sums *)

Lemma tensor_sum_perm (l l' : list Q) :
  Permutation l l' -> tensor_sum l == tensor_sum l'.
Proof.
  induction 1; simpl; try lra.
Qed.

Lemma tensor_sum_nonneg (l : list Q) :
  Forall (fun x => 0 <= x) l -> 0 <= tensor_sum l.
Proof.
  induction 1; simpl; lra.
Qed.

Lemma tensor_sum_ge_nth (l : list Q) (j : nat) :
  Forall (fun x => 0 <= x) l -> nth j l 0 <= tensor_sum l.
Proof.
  intro F. revert j. induction F as [|x l Hx F IH]; intro j.
  - destruct j; simpl; lra.
  - assert (S := tensor_sum_nonneg F).
    destruct j; simpl; [lra|]. specialize (IH j). lra.
Qed.

Lemma cumsum_from_bound (l : list Q) (acc : Q) :
  Forall (fun x => 0 <= x) l ->
  Forall (fun c => c <= acc + tensor_sum l) (cumsum_from acc l).
Proof.
  intro F. revert acc. induction F as [|x l Hx F IH]; intro acc; simpl.
  - constructor.
  - assert (S := tensor_sum_nonneg F). constructor; [lra|].
    eapply Forall_impl; [|apply IH]. simpl. intros c Hc. lra.
Qed.

Lemma cumsum_from_length (l : list Q) (acc : Q) :
  length (cumsum_from acc l) = length l.
Proof.
  revert acc. induction l as [|x l IH]; intro acc; simpl; auto.
Qed.

(** ** Zeroing and masks *)

Lemma index_fill_zero_length (probs : list Q) (idxs : list nat) :
  length (index_fill_zero probs idxs) = length probs.
Proof.
  unfold index_fill_zero. now rewrite length_map, enumerate_length.
Qed.

Lemma index_fill_zero_nth (probs : list Q) (idxs : list nat) (j : nat) :
  (j < length probs)%nat ->
  nth j (index_fill_zero probs idxs) 0 =
  if existsb (Nat.eqb j) idxs then 0 else nth j probs 0.
Proof.
  intro Hj. unfold index_fill_zero.
  set (f := fun xi : Q * nat =>
              if existsb (Nat.eqb (snd xi)) idxs then 0 else fst xi).
  rewrite (nth_indep _ 0 (f (0, 0%nat)))
    by (now rewrite length_map, enumerate_length).
  rewrite map_nth, enumerate_nth by assumption. reflexivity.
Qed.

Lemma index_fill_zero_nil (probs : list Q) : index_fill_zero probs [] = probs.
Proof.
  unfold index_fill_zero, enumerate; simpl.
  etransitivity; [|apply (map_fst_combine_seq probs 0)].
  apply map_ext. reflexivity.
Qed.

Lemma index_fill_zero_kept (probs : list Q) (idxs : list nat) (j : nat) :
  (j < length probs)%nat -> ~ In j idxs ->
  nth j (index_fill_zero probs idxs) 0 = nth j probs 0.
Proof.
  intros Hj Hn. rewrite index_fill_zero_nth by assumption.
  destruct (existsb (Nat.eqb j) idxs) eqn:E; [|reflexivity].
  apply existsb_exists in E. destruct E as (x & Hx & Ex).
  apply Nat.eqb_eq in Ex. subst x. contradiction.
Qed.

Lemma index_fill_zero_zeroed (probs : list Q) (idxs : list nat) (j : nat) :
  (j < length probs)%nat -> In j idxs ->
  nth j (index_fill_zero probs idxs) 0 = 0.
Proof.
  intros Hj Hin. rewrite index_fill_zero_nth by assumption.
  destruct (existsb (Nat.eqb j) idxs) eqn:E; [reflexivity|].
  assert (existsb (Nat.eqb j) idxs = true); [|congruence].
  apply existsb_exists. exists j. split; [assumption|apply Nat.eqb_refl].
Qed.

Lemma Forall_nth_iff (P : Q -> Prop) (l : list Q) :
  Forall P l <-> (forall j, (j < length l)%nat -> P (nth j l 0)).
Proof.
  rewrite Forall_forall. split.
  - intros H j Hj. apply H. now apply nth_In.
  - intros H x Hx. apply (In_nth _ _ 0) in Hx.
    destruct Hx as (j & Hj & <-). now apply H.
Qed.

Lemma index_fill_zero_nonneg (probs : list Q) (idxs : list nat) :
  Forall (fun x => 0 <= x) probs ->
  Forall (fun x => 0 <= x) (index_fill_zero probs idxs).
Proof.
  intro F. apply Forall_nth_iff. intros j Hj.
  rewrite index_fill_zero_length in Hj.
  rewrite index_fill_zero_nth by assumption.
  destruct (existsb (Nat.eqb j) idxs); [lra|].
  now apply (proj1 (Forall_nth_iff _ probs) F).
Qed.

Lemma masked_select_incl (idxs : list nat) (mask : list bool) (x : nat) :
  In x (masked_select idxs mask) -> In x idxs.
Proof.
  unfold masked_select. intro H. apply in_map_iff in H.
  destruct H as ([i b] & <- & H). apply filter_In in H. destruct H as [H _].
  now apply in_combine_l in H.
Qed.

Lemma masked_select_cons_false (i : nat) (idxs : list nat) (mask : list bool) :
  masked_select (i :: idxs) (false :: mask) = masked_select idxs mask.
Proof. reflexivity. Qed.

Lemma masked_select_all_false (idxs : list nat) (mask : list bool) :
  Forall (fun b => b = false) mask -> masked_select idxs mask = [].
Proof.
  intro F. revert idxs. induction F as [|b mask Hb F IH]; intro idxs.
  - destruct idxs; reflexivity.
  - destruct idxs as [|i idxs]; [reflexivity|]. subst b.
    rewrite masked_select_cons_false. apply IH.
Qed.

Lemma div_by_sum_pos (t : list Q) :
  0 < tensor_sum t ->
  div_by_sum t = Some (map (fun x => x / tensor_sum t) t).
Proof.
  intro H. unfold div_by_sum.
  destruct (Qeq_bool (tensor_sum t) 0) eqn:E; [|reflexivity].
  apply Qeq_bool_iff in E. lra.
Qed.

(** The shape of the top-p truncation on a non-empty tensor: position 0 of
    the sorted order is never in the mask. *)
Lemma TopP_truncate_unfold (p : Q) (probs : list Q) (v0 : Q) (i0 : nat)
      (r : list (Q * nat)) :
  ProbSort.sort (enumerate probs) = (v0, i0) :: r ->
  TopP_truncate p probs =
  Returned (index_fill_zero probs
              (masked_select (map snd r)
                 (map (fun c => Qgt_bool c p)
                      (cumsum_from (0 + v0) (map fst r))))).
Proof.
  intro E. unfold TopP_truncate, TopP_mask, torch_sort_desc. rewrite E.
  reflexivity.
Qed.

(** ** Top-p decoding keeps the greatest entry *)

(** C3. On a tensor of non-negative entries that sum to 1, and for every
    [p] (so for every [p] in (0,1]), [TopPDecoding.sample] leaves the first
    index of the descending sort untouched: that index carries a greatest
    entry, the entry is positive, it survives the truncation, and the sum
    the tensor is then divided by is strictly positive. *)
Theorem TopP_keeps_top_entry (p : Q) (probs : list Q) :
  Forall (fun x => 0 <= x) probs ->
  tensor_sum probs == 1 ->
  exists (i0 : nat) (rest : list nat) (t : list Q),
    snd (torch_sort_desc probs) = i0 :: rest /\
    TopP_truncate p probs = Returned t /\
    (i0 < length probs)%nat /\
    (forall j, (j < length probs)%nat -> nth j probs 0 <= nth i0 probs 0) /\
    0 < nth i0 probs 0 /\
    nth i0 t 0 = nth i0 probs 0 /\
    0 < tensor_sum t /\
    TopP_dist p probs = Returned (Some (map (fun x => x / tensor_sum t) t)).
Proof.
  intros Hnn Hsum.
  assert (Hne : probs <> []).
  { intros ->. simpl in Hsum. lra. }
  destruct (sort_nonempty Hne) as (v0 & i0 & r & E).
  destruct (@sort_head_max _ _ _ _ E) as (Hi0 & Hv0 & Hmax & Hnotin).
  set (t := index_fill_zero probs
              (masked_select (map snd r)
                 (map (fun c => Qgt_bool c p)
                      (cumsum_from (0 + v0) (map fst r))))).
  assert (Ht : TopP_truncate p probs = Returned t)
    by (apply (@TopP_truncate_unfold p probs v0 i0 r E)).
  assert (Hpos : 0 < nth i0 probs 0).
  { destruct (Qlt_le_dec 0 (nth i0 probs 0)) as [H|H]; [assumption|].
    exfalso.
    assert (Hz : tensor_sum probs <= 0).
    { clear - Hmax H Hv0. rewrite Hv0 in H.
      assert (F : Forall (fun x => x <= 0) probs).
      { apply Forall_nth_iff. intros j Hj. specialize (Hmax j Hj).
        cbv beta. now apply Qle_trans with v0. }
      clear Hmax Hv0 H. induction F as [|x l Hx F IH]; simpl; lra. }
    lra. }
  assert (Hkept : nth i0 t 0 = nth i0 probs 0).
  { apply index_fill_zero_kept; [assumption|].
    intro Hin. apply masked_select_incl in Hin. contradiction. }
  assert (Htsum : 0 < tensor_sum t).
  { assert (G := @tensor_sum_ge_nth t i0 (index_fill_zero_nonneg _ Hnn)).
    rewrite Hkept in G. lra. }
  exists i0, (map snd r), t.
  repeat split; trivial.
  - unfold torch_sort_desc. rewrite E. reflexivity.
  - rewrite Hv0. assumption.
  - unfold TopP_dist. rewrite Ht. simpl. now rewrite div_by_sum_pos.
Qed.

Lemma TopP_keeps_top_entry_witness :
  exists (i0 : nat) (rest : list nat) (t : list Q),
    snd (torch_sort_desc [1#5; 1#2; 3#10]) = i0 :: rest /\
    TopP_truncate (3#4) [1#5; 1#2; 3#10] = Returned t /\
    (i0 < 3)%nat /\
    (forall j, (j < 3)%nat ->
               nth j [1#5; 1#2; 3#10] 0 <= nth i0 [1#5; 1#2; 3#10] 0) /\
    0 < nth i0 [1#5; 1#2; 3#10] 0 /\
    nth i0 t 0 = nth i0 [1#5; 1#2; 3#10] 0 /\
    0 < tensor_sum t /\
    TopP_dist (3#4) [1#5; 1#2; 3#10] =
    Returned (Some (map (fun x => x / tensor_sum t) t)).
Proof.
  apply (@TopP_keeps_top_entry (3#4) [1#5; 1#2; 3#10]).
  - repeat constructor; discriminate.
  - reflexivity.
Defined.

(** ** The draw respects numerical equality *)

Lemma tensor_sum_compat (w w' : list Q) :
  Forall2 Qeq w w' -> tensor_sum w == tensor_sum w'.
Proof.
  induction 1 as [|x x' w w' Hx Hw IH]; simpl; lra.
Qed.

Lemma Qle_bool_compat (a a' b b' : Q) :
  a == a' -> b == b' -> Qle_bool a b = Qle_bool a' b'.
Proof.
  intros Ha Hb. assert (H := Qgt_bool_compat Ha Hb). unfold Qgt_bool in H.
  destruct (Qle_bool a b), (Qle_bool a' b'); simpl in H; congruence.
Qed.

Lemma existsb_negative_compat (w w' : list Q) :
  Forall2 Qeq w w' ->
  existsb (fun x => Qgt_bool 0 x) w = existsb (fun x => Qgt_bool 0 x) w'.
Proof.
  induction 1 as [|x x' w w' Hx Hw IH]; simpl; [reflexivity|].
  rewrite IH. f_equal. apply Qgt_bool_compat; [reflexivity|assumption].
Qed.

Lemma inverse_cdf_compat (w w' : list Q) :
  Forall2 Qeq w w' ->
  forall target target' i, target == target' ->
  inverse_cdf w target i = inverse_cdf w' target' i.
Proof.
  induction 1 as [|x x' w w' Hx Hw IH]; intros target target' i Ht; simpl.
  - reflexivity.
  - rewrite (Qgt_bool_compat Hx Ht).
    destruct (Qgt_bool x' target'); [reflexivity|].
    apply IH. lra.
Qed.

Lemma multinomial_compat (w w' : list Q) (u : Q) :
  Forall2 Qeq w w' -> multinomial (Some w) u = multinomial (Some w') u.
Proof.
  intro H. unfold multinomial.
  assert (S := tensor_sum_compat H).
  rewrite (existsb_negative_compat H).
  rewrite (@Qle_bool_compat (tensor_sum w) (tensor_sum w') 0 0 S (Qeq_refl 0)).
  destruct (_ || _); [reflexivity|].
  apply inverse_cdf_compat; [assumption|]. now rewrite S.
Qed.

Lemma all_false_repeat (m : list bool) :
  Forall (fun b => b = false) m -> m = repeat false (length m).
Proof.
  induction 1 as [|b m Hb F IH]; simpl; [reflexivity|].
  now rewrite Hb, <- IH.
Qed.

Lemma set_first_false_all_false (m : list bool) :
  m <> [] -> Forall (fun b => b = false) m ->
  set_first_false m = Returned m.
Proof.
  intros Hne F. destruct m as [|b m]; [congruence|].
  inversion F; subst. reflexivity.
Qed.

(** With [p = 1] no cumulative sum of a tensor that sums to 1 exceeds [p]. *)
Lemma TopP_one_mask_false (probs : list Q) :
  Forall (fun x => 0 <= x) probs ->
  tensor_sum probs == 1 ->
  Forall (fun b => b = false)
         (map (fun c => Qgt_bool c 1) (cumsum (fst (torch_sort_desc probs)))).
Proof.
  intros Hnn Hsum.
  assert (P := sorted_probs_perm probs).
  assert (Hnn' : Forall (fun x => 0 <= x) (fst (torch_sort_desc probs))).
  { rewrite Forall_forall in *. intros x Hx. apply Hnn.
    eapply Permutation_in; [symmetry; exact P|assumption]. }
  assert (S := tensor_sum_perm P).
  apply Forall_map. unfold cumsum.
  eapply Forall_impl; [|apply (cumsum_from_bound 0 Hnn')].
  cbv beta. intros c Hc. apply Qgt_bool_false. lra.
Qed.

(** ** Top-p decoding with [p = 1] *)

(** C10. On a tensor of non-negative entries that sum to exactly 1,
    [TopPDecoding(1).sample] suppresses nothing: its mask is false at every
    position, the truncated tensor is the input, the tensor it draws from is
    numerically the input, and for every uniform number it returns what
    [RandomDecoding.sample] returns. *)
Theorem TopP_one_is_RandomDecoding (probs : list Q) :
  Forall (fun x => 0 <= x) probs ->
  tensor_sum probs == 1 ->
  TopP_mask 1 probs = Returned (repeat false (length probs)) /\
  TopP_truncate 1 probs = Returned probs /\
  (exists d, TopP_dist 1 probs = Returned (Some d) /\ Forall2 Qeq d probs) /\
  (forall u, TopPDecoding_sample 1 probs u = RandomDecoding_sample probs u).
Proof.
  intros Hnn Hsum.
  assert (Hne : probs <> []).
  { intros ->. simpl in Hsum. lra. }
  assert (F := TopP_one_mask_false Hnn Hsum).
  destruct (sorted_lengths probs) as [L1 L2].
  assert (Hmask : TopP_mask 1 probs = Returned (repeat false (length probs))).
  { unfold TopP_mask.
    destruct (torch_sort_desc probs) as [sorted_probs sorted_indices] eqn:E.
    simpl in F, L1.
    rewrite set_first_false_all_false; trivial.
    - rewrite (all_false_repeat F) at 1.
      unfold cumsum. now rewrite length_map, cumsum_from_length, L1.
    - intro Hnil. apply (f_equal (@length bool)) in Hnil.
      unfold cumsum in Hnil.
      rewrite length_map, cumsum_from_length, L1 in Hnil.
      destruct probs; [congruence|discriminate]. }
  assert (Htr : TopP_truncate 1 probs = Returned probs).
  { unfold TopP_truncate. rewrite Hmask.
    destruct (torch_sort_desc probs) as [sorted_probs sorted_indices].
    simpl. rewrite masked_select_all_false.
    - now rewrite index_fill_zero_nil.
    - clear. induction (length probs); simpl; constructor; auto. }
  assert (Hpos : 0 < tensor_sum probs) by lra.
  assert (Hd : Forall2 Qeq (map (fun x => x / tensor_sum probs) probs) probs).
  { generalize (tensor_sum probs) Hsum. clear. intros s Hs.
    induction probs as [|y l IH]; simpl; constructor.
    - rewrite Hs. field.
    - exact IH. }
  assert (Hdist : TopP_dist 1 probs =
                  Returned (Some (map (fun x => x / tensor_sum probs) probs))).
  { unfold TopP_dist. rewrite Htr. simpl. now rewrite div_by_sum_pos. }
  repeat split; trivial.
  - eexists. split; [exact Hdist|exact Hd].
  - intro u. unfold TopPDecoding_sample, RandomDecoding_sample.
    rewrite Hdist. simpl. now apply multinomial_compat.
Qed.

Lemma TopP_one_is_RandomDecoding_witness :
  TopP_mask 1 [1#10; 7#10; 1#5] = Returned (repeat false 3) /\
  TopP_truncate 1 [1#10; 7#10; 1#5] = Returned [1#10; 7#10; 1#5] /\
  (exists d, TopP_dist 1 [1#10; 7#10; 1#5] = Returned (Some d) /\
             Forall2 Qeq d [1#10; 7#10; 1#5]) /\
  (forall u, TopPDecoding_sample 1 [1#10; 7#10; 1#5] u =
             RandomDecoding_sample [1#10; 7#10; 1#5] u).
Proof.
  apply (@TopP_one_is_RandomDecoding [1#10; 7#10; 1#5]).
  - repeat constructor; discriminate.
  - reflexivity.
Defined.

(** ** Top-p decoding: which prefix is kept *)

(** In sorted order, position 0 is never masked, and a later position is
    masked exactly when the cumulative sum up to and including it exceeds
    [p]: the kept positions are those whose cumulative sum is at most [p]. *)
Lemma TopP_mask_spec (p : Q) (probs : list Q) (m : list bool) (i : nat) :
  TopP_mask p probs = Returned m ->
  (i < length probs)%nat ->
  nth i m false =
  if (i =? 0)%nat then false
  else Qgt_bool (nth i (cumsum (fst (torch_sort_desc probs))) 0) p.
Proof.
  unfold TopP_mask.
  destruct (sorted_lengths probs) as [L1 _].
  destruct (torch_sort_desc probs) as [sorted_probs sorted_indices].
  simpl in *. intros H Hi.
  destruct (map (fun c => Qgt_bool c p) (cumsum sorted_probs)) as [|b r] eqn:E;
    simpl in H; [discriminate|].
  inversion H; subst m. destruct i as [|i]; [reflexivity|]. simpl.
  change (nth i r false) with (nth (S i) (b :: r) false). rewrite <- E.
  rewrite (nth_indep _ false (Qgt_bool 0 p)).
  - now rewrite (map_nth (fun c => Qgt_bool c p)).
  - unfold cumsum. rewrite length_map, cumsum_from_length. lia.
Qed.

(** C1, at the input [probs = [0.5, 0.3, 0.2]], [p = 0.75].  The sorted
    order is the identity and the cumulative sums are 0.5, 0.8 and 1, so the
    smallest prefix whose sum exceeds [p] is positions 0 and 1.
    [TopPDecoding.sample] masks positions 1 and 2, zeroes the entries 1 and
    2 and keeps entry 0 alone: the surviving mass is 0.5, which does not
    exceed [p], and the only candidate of the draw is index 0. *)
Theorem TopP_keeps_prefix_below_p :
  let probs := [1#2; 3#10; 1#5] in
  let p := 3#4 in
  snd (torch_sort_desc probs) = [0; 1; 2]%nat /\
  Forall2 Qeq (cumsum (fst (torch_sort_desc probs))) [1#2; 4#5; 1] /\
  TopP_mask p probs = Returned [false; true; true] /\
  TopP_truncate p probs = Returned [1#2; 0; 0] /\
  ~ p < tensor_sum [1#2; 0; 0] /\
  p < tensor_sum [1#2; 3#10; 0] /\
  dist_candidates (TopP_dist p probs) = Some [0%nat].
Proof.
  cbv zeta. repeat split; try reflexivity.
  - repeat constructor; reflexivity.
  - intro H. vm_compute in H. discriminate.
Qed.

(** ** Top-k followed by top-p *)

Lemma TopKTopP_dist_unfold (k : Z) (p : Q) (probs : list Q) :
  TopKTopP_dist k p probs = TopK_then_TopP_dist k p probs.
Proof.
  unfold TopKTopP_dist, TopK_then_TopP_dist, TopK_dist, TopK_truncate.
  destruct (torch_sort_desc probs) as [sorted_probs sorted_indices].
  destruct (div_by_sum _) as [probs2|]; [|reflexivity].
  unfold TopP_dist, TopP_truncate, TopP_mask.
  destruct (torch_sort_desc probs2) as [sorted_probs2 sorted_indices2].
  destruct (set_first_false _); reflexivity.
Qed.

(** C4. The tensor [TopKTopPDecoding(k, p).sample] draws from is the one
    obtained by handing the tensor [TopKDecoding(k)] draws from to
    [TopPDecoding(p)], which sorts it afresh; so the candidates and the
    drawn index are the same.  On [0.4, 0.3, 0.2, 0.1] with [k = 2] and
    [p = 0.75] the candidates are index 0 alone, while [TopPDecoding(p)]
    by itself leaves the candidates 0 and 1. *)
Theorem TopKTopP_is_TopK_then_TopP :
  (forall (k : Z) (p : Q) (probs : list Q),
      TopKTopP_dist k p probs = TopK_then_TopP_dist k p probs /\
      dist_candidates (TopKTopP_dist k p probs) =
      dist_candidates (TopK_then_TopP_dist k p probs) /\
      forall u, TopKTopPDecoding_sample k p probs u =
                (d <- TopK_then_TopP_dist k p probs ;; multinomial d u)) /\
  dist_candidates (TopKTopP_dist 2 (3#4) [4#10; 3#10; 2#10; 1#10]) =
    Some [0%nat] /\
  dist_candidates (TopP_dist (3#4) [4#10; 3#10; 2#10; 1#10]) =
    Some [0; 1]%nat.
Proof.
  split; [|split; reflexivity].
  intros k p probs. assert (E := TopKTopP_dist_unfold k p probs).
  split; [exact E|]. split.
  - now rewrite E.
  - intro u. unfold TopKTopPDecoding_sample. now rewrite E.
Qed.
(** ** The generation loop: its log *)

Lemma concat_snoc (l : list (list Token)) (t : Token) :
  concat (l ++ [[t]]) = concat l ++ [t].
Proof.
  rewrite concat_app. reflexivity.
Qed.

Section GenerationLoop.

Variable Logits : Type.
Variable model : list Token -> Logits.
Variable softmax : Logits -> Q -> list Q.
Variable tokenizer_encode : string -> list Token.
Variable tokenizer_decode : list Token -> string.
Variable decoding_strategy : list Q -> Q -> outcome Token.
Variable eos_idx : Token.
Variable max_input_length : nat.
Variable rand : nat -> Q.
Variable max_steps : Z.
Variable temperature : Q.

Local Abbreviation loop :=
  (generate_loop model softmax decoding_strategy eos_idx max_input_length
                 rand max_steps temperature).
Local Abbreviation run :=
  (generate_run model softmax tokenizer_encode decoding_strategy eos_idx
                max_input_length rand max_steps temperature).
Local Abbreviation gen :=
  (generate model softmax tokenizer_encode tokenizer_decode decoding_strategy
            eos_idx max_input_length rand max_steps temperature).
Local Abbreviation log_ok :=
  (consistent_log model softmax decoding_strategy eos_idx max_input_length
                  rand temperature).
Local Abbreviation added := (appended eos_idx).
Local Abbreviation over := (exceeds max_input_length).
Local Abbreviation recent := (most_recent max_input_length).

Lemma generate_loop_log (fuel : nat) :
  forall st st' e,
    loop fuel st = (st', e) ->
    st_x st = concat (running_out st) ->
    (0 <= step_count st)%Z ->
    exists new,
      steps st' = steps st ++ new /\
      log_ok (Z.to_nat (step_count st)) (concat (running_out st))
             (max_length_warning_triggered st) new /\
      concat (running_out st') = concat (running_out st) ++ added new /\
      (forall ex, e = Some ex ->
                  exists pre last, new = pre ++ [last] /\
                                   sampled last = Raised ex) /\
      (length new <= fuel)%nat.
Proof.
  assert (Hstop : forall st st' e (n : nat), (st, @None exn) = (st', e) ->
            exists new,
              steps st' = steps st ++ new /\
              log_ok (Z.to_nat (step_count st)) (concat (running_out st))
                     (max_length_warning_triggered st) new /\
              concat (running_out st') = concat (running_out st) ++ added new /\
              (forall ex, e = Some ex ->
                          exists pre last, new = pre ++ [last] /\
                                           sampled last = Raised ex) /\
              (length new <= n)%nat).
  { intros st st' e n H. inversion H; subst. exists [].
    rewrite !app_nil_r. simpl. repeat split; auto with arith.
    intros; discriminate. }
  induction fuel as [|fuel IH]; intros st st' e H Hx Hc0; simpl in H.
  - now apply Hstop.
  - destruct (step_count st <? max_steps)%Z; [|now apply Hstop].
    rewrite Hx in H.
    destruct (decoding_strategy _ _) as [t|ex] eqn:R in H.
    + destruct (t =? eos_idx)%nat eqn:Eos.
      * inversion H; subst; clear H. simpl. eexists [_].
        split; [reflexivity|]. simpl. rewrite Eos, !app_nil_r.
        repeat split; auto with arith; congruence.
      * apply IH in H; [|reflexivity|simpl; lia]. simpl in H.
        destruct H as (new & Hs & Hlog & Hc & Hex & Hlen).
        rewrite <- app_assoc in Hs. simpl in Hs.
        eexists. split; [exact Hs|].
        rewrite concat_snoc in Hlog, Hc.
        replace (Z.to_nat (step_count st + 1))
          with (S (Z.to_nat (step_count st))) in Hlog by lia.
        apply Nat.eqb_neq in Eos as Hneq.
        simpl. rewrite Eos. simpl. repeat split.
        -- now rewrite R.
        -- intros _. now exists t.
        -- unfold exceeds.
           destruct (max_input_length <? _)%nat; exact Hlog.
        -- rewrite Hc, <- app_assoc. reflexivity.
        -- intros ex Hex'. destruct (Hex ex Hex') as (pre & last & -> & Hl).
           eexists (_ :: pre), last. split; [reflexivity|assumption].
        -- lia.
    + inversion H; subst; clear H. simpl. eexists [_].
      split; [reflexivity|]. simpl. rewrite !app_nil_r.
      repeat split; auto with arith; try congruence.
      intros ex' Hex. inversion Hex; subst.
      eexists [], _. split; reflexivity.
Qed.

Lemma appended_app (a b : list step_log) :
  added (a ++ b) = added a ++ added b.
Proof.
  unfold appended. apply flat_map_app.
Qed.

Lemma appended_cons (entry : step_log) (rest : list step_log) :
  added (entry :: rest) = added [entry] ++ added rest.
Proof.
  exact (appended_app [entry] rest).
Qed.

(** What a consistent log says of its entry number [i]. *)
Lemma consistent_log_entry (new : list step_log) :
  forall step record triggered i entry,
    log_ok step record triggered new ->
    nth_error new i = Some entry ->
    seen_input entry = record ++ added (firstn i new) /\
    view entry = (if over (seen_input entry) then recent (seen_input entry)
                  else seen_input entry) /\
    warned entry =
      over (seen_input entry) &&
      negb (triggered || existsb (fun e => over (seen_input e)) (firstn i new)) /\
    ((S i < length new)%nat ->
     exists t, sampled entry = Returned t /\ t <> eos_idx) /\
    sampled entry =
      decoding_strategy (softmax (model (view entry)) temperature)
                        (rand (step + i)).
Proof.
  induction new as [|head rest IH];
    intros step record triggered i entry Hlog Hnth.
  - destruct i; discriminate.
  - destruct Hlog as (Hseen & Hview & Hwarn & Hsam & Hnext & Hrest).
    destruct i as [|i]; simpl in Hnth.
    + inversion Hnth; subst entry. simpl. rewrite app_nil_r, orb_false_r.
      rewrite Hseen, Nat.add_0_r. repeat split; trivial.
      intro Hlen. apply Hnext. destruct rest; [simpl in Hlen; lia|discriminate].
    + destruct (IH _ _ _ _ _ Hrest Hnth) as (Es & Ev & Ew & En & Esam).
      repeat split; trivial.
      * rewrite Es. cbn [firstn].
        rewrite (appended_cons head (firstn i rest)).
        now rewrite app_assoc.
      * rewrite Ew. cbn [firstn existsb]. rewrite Hseen.
        destruct (over record), triggered,
          (existsb (fun e => over (seen_input e)) (firstn i rest));
          reflexivity.
      * intro Hlen. apply En. simpl in Hlen. lia.
      * rewrite Esam. now rewrite Nat.add_succ_r.
Qed.

(** Once the flag is set no entry of a consistent log carries a warning;
    a consistent log carries at most one. *)
Lemma consistent_log_warnings (new : list step_log) :
  forall step record triggered,
    log_ok step record triggered new ->
    (length (filter warned new) <= if triggered then 0 else 1)%nat.
Proof.
  induction new as [|head rest IH]; intros step record triggered Hlog.
  - simpl. destruct triggered; lia.
  - destruct Hlog as (_ & _ & Hwarn & _ & _ & Hrest).
    specialize (IH _ _ _ Hrest). simpl. rewrite Hwarn.
    destruct (over record), triggered; simpl in *; lia.
Qed.

(** The log of a whole run. *)
Lemma generate_run_log (prompt : string) (st : loop_state) (e : option exn) :
  run prompt = (st, e) ->
  log_ok 0%nat (tokenizer_encode prompt) false (steps st) /\
  concat (running_out st) = tokenizer_encode prompt ++ added (steps st) /\
  (forall ex, e = Some ex ->
              exists pre last, steps st = pre ++ [last] /\
                               sampled last = Raised ex).
Proof.
  intro H. unfold generate_run in H.
  apply generate_loop_log in H; [|simpl; now rewrite app_nil_r|simpl; lia].
  destruct H as (new & Hs & Hlog & Hc & Hex & _).
  simpl in Hs, Hlog, Hc. rewrite app_nil_r in Hlog, Hc. subst new.
  auto.
Qed.

(** A run whose budget is not positive does nothing. *)
Lemma generate_no_steps (prompt : string) :
  (max_steps <= 0)%Z ->
  run prompt = (initial_state tokenizer_encode prompt, None) /\
  gen prompt = Returned (tokenizer_decode (tokenizer_encode prompt)) /\
  model_invocations model softmax tokenizer_encode decoding_strategy eos_idx
    max_input_length rand max_steps temperature prompt = [] /\
  warnings model softmax tokenizer_encode decoding_strategy eos_idx
    max_input_length rand max_steps temperature prompt = [].
Proof.
  intro H.
  assert (R : run prompt = (initial_state tokenizer_encode prompt, None)).
  { unfold generate_run. destruct (Z.to_nat max_steps) as [|n] eqn:E.
    - reflexivity.
    - simpl. destruct (0 <? max_steps)%Z eqn:C; [|reflexivity].
      apply Z.ltb_lt in C. lia. }
  unfold generate, model_invocations, warnings. rewrite R. simpl.
  now rewrite app_nil_r.
Qed.

(** With a positive budget the first iteration runs, whatever the
    temperature: the model is invoked on the (clamped) prompt. *)
Lemma generate_first_invocation (prompt : string) :
  (0 < max_steps)%Z ->
  exists later,
    model_invocations model softmax tokenizer_encode decoding_strategy eos_idx
      max_input_length rand max_steps temperature prompt =
    (if over (tokenizer_encode prompt) then recent (tokenizer_encode prompt)
     else tokenizer_encode prompt) :: later.
Proof.
  intro H. unfold model_invocations.
  destruct (run prompt) as [st e] eqn:R. simpl.
  destruct (generate_run_log _ R) as (Hlog & _ & _).
  unfold generate_run in R.
  destruct (Z.to_nat max_steps) as [|n] eqn:E; [lia|].
  destruct (steps st) as [|head rest] eqn:S.
  - exfalso. simpl in R.
    assert (C : (0 <? max_steps)%Z = true) by (apply Z.ltb_lt; lia).
    rewrite C in R.
    destruct (decoding_strategy _ _) as [t|ex] in R.
    + destruct (t =? eos_idx)%nat.
      * inversion R; subst. discriminate.
      * apply generate_loop_log in R; [|reflexivity|simpl; lia].
        destruct R as (new & Hs & _). simpl in Hs. rewrite S in Hs.
        discriminate.
    + inversion R; subst. discriminate.
  - destruct Hlog as (Hseen & Hview & _). simpl. rewrite Hview.
    now exists (map view rest).
Qed.

Local Abbreviation invocations :=
  (model_invocations model softmax tokenizer_encode decoding_strategy eos_idx
     max_input_length rand max_steps temperature).
Local Abbreviation warns :=
  (warnings model softmax tokenizer_encode decoding_strategy eos_idx
     max_input_length rand max_steps temperature).

Lemma existsb_false_Forall (A : Type) (f : A -> bool) (l : list A) :
  existsb f l = false <-> Forall (fun a => f a = false) l.
Proof.
  induction l as [|a l IH]; simpl.
  - split; auto.
  - rewrite orb_false_iff, IH. split.
    + intros [Ha Hl]. now constructor.
    + intro F. inversion F; subst. auto.
Qed.

(** While the strategy keeps returning tokens other than the
    end-of-sequence index, the loop runs as many iterations as the budget
    allows and each appends one token. *)
Lemma generate_loop_budget (fuel : nat) :
  (forall x u, exists t,
      decoding_strategy (softmax (model x) temperature) u = Returned t /\
      t <> eos_idx) ->
  forall st,
    (step_count st + Z.of_nat fuel <= max_steps)%Z ->
    exists st',
      loop fuel st = (st', None) /\
      length (steps st') = (length (steps st) + fuel)%nat /\
      length (concat (running_out st')) =
      (length (concat (running_out st)) + fuel)%nat.
Proof.
  intro Hnever. induction fuel as [|fuel IH]; intros st Hb; simpl.
  - exists st. repeat split; lia.
  - assert (C : (step_count st <? max_steps)%Z = true)
      by (apply Z.ltb_lt; lia).
    rewrite C.
    match goal with
    | |- context [decoding_strategy (softmax (model ?x) temperature) ?u] =>
        destruct (Hnever x u) as (t & R & Hne)
    end.
    rewrite R. apply Nat.eqb_neq in Hne. rewrite Hne.
    match goal with
    | |- context [loop fuel ?s] => destruct (IH s) as (st' & L & Hs & Hc)
    end.
    + simpl. lia.
    + exists st'. split; [exact L|]. simpl in Hs, Hc.
      rewrite length_app in Hs. rewrite concat_snoc, length_app in Hc.
      simpl in Hs, Hc. lia.
Qed.

(** C6. With a budget [max_steps = n >= 0] and a strategy that, on what the
    model predicts, never returns the end-of-sequence index, [generate]
    returns normally after exactly [n] model invocations, and what it
    decodes is the encoded prompt followed by [n] tokens; for [n = 0] no
    iteration runs and the encoded prompt is decoded as it is. *)
Theorem step_budget_exhausted (prompt : string) :
  (0 <= max_steps)%Z ->
  (forall x u, exists t,
      decoding_strategy (softmax (model x) temperature) u = Returned t /\
      t <> eos_idx) ->
  exists st,
    run prompt = (st, None) /\
    length (invocations prompt) = Z.to_nat max_steps /\
    length (concat (running_out st)) =
    (length (tokenizer_encode prompt) + Z.to_nat max_steps)%nat /\
    firstn (length (tokenizer_encode prompt)) (concat (running_out st)) =
    tokenizer_encode prompt /\
    gen prompt = Returned (tokenizer_decode (concat (running_out st))) /\
    (max_steps = 0%Z ->
     invocations prompt = [] /\
     gen prompt = Returned (tokenizer_decode (tokenizer_encode prompt))).
Proof.
  intros Hn Hnever.
  destruct (@generate_loop_budget (Z.to_nat max_steps) Hnever
              (initial_state tokenizer_encode prompt))
    as (st & L & Hs & Hc).
  { simpl. lia. }
  assert (R : run prompt = (st, None)) by exact L.
  destruct (generate_run_log _ R) as (_ & Hrec & _).
  exists st. simpl in Hs, Hc. rewrite app_nil_r in Hc.
  repeat split; trivial.
  - unfold model_invocations. rewrite R. simpl. now rewrite length_map.
  - rewrite Hrec. rewrite firstn_app, Nat.sub_diag, firstn_all. simpl.
    now rewrite app_nil_r.
  - unfold generate. now rewrite R.
  - apply generate_no_steps. lia.
  - apply generate_no_steps. lia.
Qed.

(** C7. In one call of [generate] the warning is issued at most once: a
    step carries it exactly when its full record is longer than
    [max_input_length] and the record of no earlier step of the call was,
    however many later steps are clamped; the flag of a call starts
    cleared. *)
Theorem warning_at_most_once (prompt : string) (st : loop_state)
        (e : option exn) :
  run prompt = (st, e) ->
  max_length_warning_triggered (initial_state tokenizer_encode prompt) = false /\
  (length (warns prompt) <= 1)%nat /\
  forall i entry,
    nth_error (steps st) i = Some entry ->
    seen_input entry = tokenizer_encode prompt ++ added (firstn i (steps st)) /\
    (warned entry = true <->
     (max_input_length < length (seen_input entry))%nat /\
     Forall (fun earlier =>
               (length (seen_input earlier) <= max_input_length)%nat)
            (firstn i (steps st))).
Proof.
  intro R. destruct (generate_run_log _ R) as (Hlog & _ & _).
  split; [reflexivity|]. split.
  - unfold warnings. rewrite R. simpl.
    exact (consistent_log_warnings _ _ _ _ Hlog).
  - intros i entry Hnth.
    destruct (consistent_log_entry _ _ _ _ _ Hlog Hnth) as (Es & _ & Ew & _).
    split; [exact Es|]. rewrite Ew. simpl.
    rewrite andb_true_iff, negb_true_iff, existsb_false_Forall.
    unfold exceeds. rewrite Nat.ltb_lt.
    assert (Q : forall l : list step_log,
               Forall (fun a => (max_input_length <? length (seen_input a))%nat
                                = false) l <->
               Forall (fun earlier =>
                         (length (seen_input earlier) <= max_input_length)%nat)
                      l).
    { intro l. split; apply Forall_impl; intros a Ha.
      - apply Nat.ltb_ge in Ha. exact Ha.
      - now apply Nat.ltb_ge. }
    rewrite Q. reflexivity.
Qed.

(** C8. The clamp shortens only what the model is shown.  At every step
    the input found by the loop is the full record, the encoded prompt
    followed by every token appended so far, and the token of the step is
    sampled from the model's output on the step's view; when the record is
    longer than [max_input_length] the view is its last [max_input_length]
    tokens, and otherwise all of it.  The final record is the encoded
    prompt followed by all appended tokens, and it is what [generate]
    decodes. *)
Theorem context_clamp_keeps_record (prompt : string) (st : loop_state)
        (e : option exn) :
  run prompt = (st, e) ->
  (forall i entry,
      nth_error (steps st) i = Some entry ->
      seen_input entry = tokenizer_encode prompt ++ added (firstn i (steps st)) /\
      sampled entry =
        decoding_strategy (softmax (model (view entry)) temperature) (rand i) /\
      ((max_input_length < length (seen_input entry))%nat ->
       view entry =
         skipn (length (seen_input entry) - max_input_length) (seen_input entry) /\
       length (view entry) = max_input_length /\
       exists older, seen_input entry = older ++ view entry) /\
      ((length (seen_input entry) <= max_input_length)%nat ->
       view entry = seen_input entry)) /\
  concat (running_out st) = tokenizer_encode prompt ++ added (steps st) /\
  (e = None ->
   gen prompt =
   Returned (tokenizer_decode (tokenizer_encode prompt ++ added (steps st)))).
Proof.
  intro R. destruct (generate_run_log _ R) as (Hlog & Hrec & _).
  split; [|split; [exact Hrec|]].
  - intros i entry Hnth.
    destruct (consistent_log_entry _ _ _ _ _ Hlog Hnth)
      as (Es & Ev & _ & _ & Esam).
    split; [exact Es|]. split; [exact Esam|]. split.
    + intro Hlt. apply Nat.ltb_lt in Hlt as C.
      rewrite Ev. unfold exceeds. rewrite C. unfold most_recent.
      split; [reflexivity|]. split.
      * rewrite length_skipn. lia.
      * eexists. symmetry. apply firstn_skipn.
    + intro Hle. apply Nat.ltb_ge in Hle.
      rewrite Ev. unfold exceeds. now rewrite Hle.
  - intros ->. unfold generate. rewrite R. now rewrite Hrec.
Qed.

(** The fuel [generate] gives its loop is enough: no run stops for lack of
    fuel while [step_count < max_steps] holds, so more fuel changes nothing. *)
Lemma generate_loop_fuel (fuel extra : nat) :
  forall st,
    (max_steps - step_count st <= Z.of_nat fuel)%Z ->
    loop (fuel + extra) st = loop fuel st.
Proof.
  induction fuel as [|fuel IH]; intros st Hb.
  - simpl. destruct extra as [|extra]; [reflexivity|]. simpl.
    destruct (step_count st <? max_steps)%Z eqn:C; [|reflexivity].
    apply Z.ltb_lt in C. lia.
  - simpl. destruct (step_count st <? max_steps)%Z; [|reflexivity].
    destruct (decoding_strategy _ _) as [t|ex]; [|reflexivity].
    destruct (t =? eos_idx)%nat; [reflexivity|].
    apply IH. simpl. lia.
Qed.

(** A step at which the strategy returned the end-of-sequence index is the
    last step of its run, and nothing was appended at it. *)
Lemma eos_entry_is_last (prompt : string) (st : loop_state) (e : option exn)
      (i : nat) (entry : step_log) :
  run prompt = (st, e) ->
  nth_error (steps st) i = Some entry ->
  sampled entry = Returned eos_idx ->
  S i = length (steps st) /\
  e = None /\
  concat (running_out st) = seen_input entry /\
  gen prompt = Returned (tokenizer_decode (seen_input entry)).
Proof.
  intros R Hnth Heos.
  destruct (generate_run_log _ R) as (Hlog & Hrec & Hex).
  destruct (consistent_log_entry _ _ _ _ _ Hlog Hnth) as (Es & _ & _ & En & _).
  assert (Hi : (i < length (steps st))%nat)
    by (apply nth_error_Some; congruence).
  assert (Hlast : S i = length (steps st)).
  { destruct (Nat.lt_ge_cases (S i) (length (steps st))) as [Hlt|Hge]; [|lia].
    destruct (En Hlt) as (t & Ht & Hne). rewrite Heos in Ht.
    inversion Ht; congruence. }
  assert (Hsplit : steps st = firstn i (steps st) ++ [entry]).
  { destruct (nth_error_split _ _ Hnth) as (l1 & l2 & E & Hl1).
    rewrite E in Hlast. rewrite length_app in Hlast. simpl in Hlast.
    assert (l2 = []) by (destruct l2; [reflexivity|simpl in Hlast; lia]).
    subst l2 i. rewrite E at 2.
    rewrite firstn_app, firstn_all, Nat.sub_diag. simpl.
    now rewrite app_nil_r. }
  assert (He : e = None).
  { destruct e as [ex|]; [|reflexivity].
    destruct (Hex ex eq_refl) as (pre & last & E & Hl).
    rewrite Hsplit in E. apply app_inj_tail in E. destruct E as [_ E].
    subst last. congruence. }
  assert (A := appended_app (firstn i (steps st)) [entry]).
  rewrite <- Hsplit in A.
  assert (Hc : concat (running_out st) = seen_input entry).
  { rewrite Hrec, Es, A. simpl. rewrite Heos, Nat.eqb_refl. simpl.
    now rewrite app_nil_r. }
  repeat split; trivial.
  unfold generate. rewrite R, He. now rewrite Hc.
Qed.

(** When the strategy returns the end-of-sequence index at the first step,
    the run is that one step. *)
Lemma first_step_eos (prompt : string) :
  (0 < max_steps)%Z ->
  decoding_strategy
    (softmax (model (if over (tokenizer_encode prompt)
                     then recent (tokenizer_encode prompt)
                     else tokenizer_encode prompt)) temperature)
    (rand 0%nat) = Returned eos_idx ->
  gen prompt = Returned (tokenizer_decode (tokenizer_encode prompt)) /\
  invocations prompt =
  [if over (tokenizer_encode prompt) then recent (tokenizer_encode prompt)
   else tokenizer_encode prompt].
Proof.
  intros Hpos H. unfold exceeds in H.
  unfold generate, model_invocations, generate_run.
  destruct (Z.to_nat max_steps) as [|n] eqn:E; [lia|].
  assert (C : (0 <? max_steps)%Z = true) by (apply Z.ltb_lt; lia).
  simpl. rewrite C. simpl. rewrite H, Nat.eqb_refl. simpl.
  rewrite app_nil_r. split; reflexivity.
Qed.

End GenerationLoop.

(** ** Strategies on a tensor with all its mass on one index *)

Lemma all_mass_on_head (x : Q) (w : list Q) :
  all_mass_on 0 (x :: w) -> x == 1 /\ Forall (fun y => y == 0) w.
Proof.
  intros [_ H]. split.
  - apply (H 0%nat). simpl. lia.
  - apply Forall_nth_iff. intros j Hj.
    apply (H (S j)). simpl. lia.
Qed.

Lemma all_mass_on_tail (e : nat) (x : Q) (w : list Q) :
  all_mass_on (S e) (x :: w) -> x == 0 /\ all_mass_on e w.
Proof.
  intros [He H]. split.
  - apply (H 0%nat). simpl. lia.
  - split; [simpl in He; lia|].
    intros j Hj. apply (H (S j)). simpl. lia.
Qed.

Lemma tensor_sum_zero (w : list Q) :
  Forall (fun y => y == 0) w -> tensor_sum w == 0.
Proof.
  induction 1 as [|y w Hy F IH]; simpl; lra.
Qed.

Lemma all_mass_on_sum (w : list Q) :
  forall e, all_mass_on e w -> tensor_sum w == 1.
Proof.
  induction w as [|x w IH]; intros e H.
  - destruct H as [H _]. simpl in H. lia.
  - destruct e as [|e].
    + apply all_mass_on_head in H. destruct H as [Hx Hw].
      apply tensor_sum_zero in Hw. simpl. lra.
    + apply all_mass_on_tail in H. destruct H as [Hx Hw].
      apply IH in Hw. simpl. lra.
Qed.

Lemma all_mass_on_nonneg (e : nat) (w : list Q) :
  all_mass_on e w -> Forall (fun x => 0 <= x) w.
Proof.
  intros [_ H]. apply Forall_nth_iff. intros j Hj. specialize (H j Hj).
  cbv beta. destruct (j =? e)%nat; lra.
Qed.

Lemma inverse_cdf_all_mass (w : list Q) :
  forall e target i,
    all_mass_on e w -> 0 <= target -> target < 1 ->
    inverse_cdf w target i = Returned (i + e)%nat.
Proof.
  induction w as [|x w IH]; intros e target i H H0 H1.
  - destruct H as [H _]. simpl in H. lia.
  - simpl. destruct e as [|e].
    + apply all_mass_on_head in H. destruct H as [Hx _].
      assert (G : Qgt_bool x target = true) by (apply Qgt_bool_true; lra).
      rewrite G. now rewrite Nat.add_0_r.
    + apply all_mass_on_tail in H. destruct H as [Hx Hw].
      assert (G : Qgt_bool x target = false) by (apply Qgt_bool_false; lra).
      rewrite G. rewrite (IH e (target - x) (S i) Hw) by lra.
      f_equal. lia.
Qed.

Lemma multinomial_all_mass (e : nat) (w : list Q) (u : Q) :
  all_mass_on e w -> 0 <= u -> u < 1 ->
  multinomial (Some w) u = Returned e.
Proof.
  intros H H0 H1. unfold multinomial.
  assert (S := all_mass_on_sum H).
  assert (N : existsb (fun x => Qgt_bool 0 x) w = false).
  { apply existsb_false_Forall.
    eapply Forall_impl; [|exact (all_mass_on_nonneg H)].
    cbv beta. intros x Hx. now apply Qgt_bool_false. }
  assert (P : Qle_bool (tensor_sum w) 0 = false).
  { destruct (Qle_bool (tensor_sum w) 0) eqn:E; [|reflexivity].
    apply Qle_bool_iff in E. lra. }
  rewrite N, P. simpl.
  apply (inverse_cdf_all_mass 0 H); rewrite S; lra.
Qed.

Lemma all_mass_on_div (e : nat) (t : list Q) :
  all_mass_on e t ->
  exists d, div_by_sum t = Some d /\ all_mass_on e d.
Proof.
  intro H. assert (S := all_mass_on_sum H).
  exists (map (fun x => x / tensor_sum t) t). split.
  - apply div_by_sum_pos. lra.
  - destruct H as [He H]. split; [now rewrite length_map|].
    intros j Hj. rewrite length_map in Hj.
    rewrite (nth_indep _ 0 ((fun x => x / tensor_sum t) 0))
      by (now rewrite length_map).
    rewrite (map_nth (fun x => x / tensor_sum t)).
    rewrite (H j Hj), S. destruct (j =? e)%nat; field.
Qed.

Lemma all_mass_on_fill (e : nat) (probs : list Q) (idxs : list nat) :
  all_mass_on e probs -> ~ In e idxs ->
  all_mass_on e (index_fill_zero probs idxs).
Proof.
  intros [He H] Hn. split; [now rewrite index_fill_zero_length|].
  intros j Hj. rewrite index_fill_zero_length in Hj.
  destruct (Nat.eqb_spec j e) as [->|Hne].
  - rewrite index_fill_zero_kept by assumption.
    rewrite (H e He). now rewrite Nat.eqb_refl.
  - rewrite index_fill_zero_nth by assumption.
    destruct (existsb (Nat.eqb j) idxs); [reflexivity|].
    rewrite (H j Hj). apply Nat.eqb_neq in Hne. now rewrite Hne.
Qed.

Lemma all_mass_on_sort_head (e : nat) (probs : list Q) :
  all_mass_on e probs ->
  exists v0 r,
    ProbSort.sort (enumerate probs) = (v0, e) :: r /\ ~ In e (map snd r).
Proof.
  intros [He H].
  assert (Hne : probs <> []) by (destruct probs; [simpl in He; lia|discriminate]).
  destruct (sort_nonempty Hne) as (v0 & i0 & r & E).
  destruct (@sort_head_max _ _ _ _ E) as (Hi0 & Hv0 & Hmax & Hnotin).
  assert (i0 = e).
  { destruct (Nat.eqb_spec i0 e) as [|Hd]; [assumption|exfalso].
    assert (A := H i0 Hi0). assert (B := H e He). assert (C := Hmax e He).
    apply Nat.eqb_neq in Hd. rewrite Hd in A. rewrite Nat.eqb_refl in B.
    rewrite <- Hv0 in C. lra. }
  subst i0. eauto.
Qed.

Lemma In_skipn (n : nat) (l : list nat) (x : nat) :
  In x (skipn n l) -> In x l.
Proof.
  intro H. rewrite <- (firstn_skipn n l). apply in_or_app. now right.
Qed.

Lemma TopK_dist_all_mass (k : Z) (e : nat) (probs : list Q) :
  (1 <= k)%Z -> all_mass_on e probs ->
  exists d, TopK_dist k probs = Some d /\ all_mass_on e d.
Proof.
  intros Hk H. destruct (all_mass_on_sort_head H) as (v0 & r & E & Hn).
  unfold TopK_dist, TopK_truncate, torch_sort_desc. rewrite E.
  apply all_mass_on_div. apply all_mass_on_fill; [assumption|].
  unfold py_slice_from.
  assert (C : (k <? 0)%Z = false) by (apply Z.ltb_ge; lia).
  rewrite C. destruct (Z.to_nat k) as [|n] eqn:Ek; [lia|].
  simpl. intro Hin. apply In_skipn in Hin. contradiction.
Qed.

Lemma TopP_dist_all_mass (p : Q) (e : nat) (probs : list Q) :
  all_mass_on e probs ->
  exists d, TopP_dist p probs = Returned (Some d) /\ all_mass_on e d.
Proof.
  intro H. destruct (all_mass_on_sort_head H) as (v0 & r & E & Hn).
  unfold TopP_dist. rewrite (@TopP_truncate_unfold p probs v0 e r E). simpl.
  match goal with
  | |- context [div_by_sum ?t] =>
      destruct (@all_mass_on_div e t) as (d & Hd & Hm)
  end.
  - apply all_mass_on_fill; [assumption|].
    intro Hin. apply masked_select_incl in Hin. contradiction.
  - exists d. rewrite Hd. auto.
Qed.

Lemma sample_all_mass (s : DecodingStrategy) (e : nat) (probs : list Q) (u : Q) :
  positive_k s -> all_mass_on e probs -> 0 <= u -> u < 1 ->
  sample s probs u = Returned e.
Proof.
  intros Hs H H0 H1. destruct s as [| |k|p|k p]; simpl.
  - unfold GreedyDecoding_sample.
    assert (Hne : probs <> []).
    { destruct H as [He _]. destruct probs; [simpl in He; lia|discriminate]. }
    destruct (argmax_first_maximum Hne) as (i & Hi & Hlt & Hmax & _).
    rewrite Hi. f_equal.
    destruct H as [He H].
    destruct (Nat.eqb_spec i e) as [|Hd]; [assumption|exfalso].
    assert (A := H i Hlt). assert (B := H e He). assert (C := Hmax e He).
    apply Nat.eqb_neq in Hd. rewrite Hd in A. rewrite Nat.eqb_refl in B. lra.
  - now apply multinomial_all_mass.
  - unfold TopKDecoding_sample.
    destruct (TopK_dist_all_mass Hs H) as (d & -> & Hd).
    now apply multinomial_all_mass.
  - unfold TopPDecoding_sample.
    destruct (TopP_dist_all_mass p H) as (d & -> & Hd). simpl.
    now apply multinomial_all_mass.
  - unfold TopKTopPDecoding_sample.
    rewrite TopKTopP_dist_unfold. unfold TopK_then_TopP_dist.
    destruct (TopK_dist_all_mass Hs H) as (d1 & -> & Hd1).
    destruct (TopP_dist_all_mass p Hd1) as (d & -> & Hd). simpl.
    now apply multinomial_all_mass.
Qed.

(** ** Stopping at the end-of-sequence index *)

(** C5. A step at which the strategy's [sample] returns the
    end-of-sequence index is the last step of its run: the loop ends
    without an exception, the record is what that step found (nothing was
    appended), and it is what [generate] decodes.  In particular, when the
    model puts all the mass on [eos_idx] at the first step, a strategy with
    [k >= 1] (if it has a [k]) returns it, so [generate] invokes the model
    once and returns the decoding of the encoded prompt. *)
Theorem generate_stops_at_eos
        (Logits : Type) (model : list Token -> Logits)
        (softmax : Logits -> Q -> list Q)
        (tokenizer_encode : string -> list Token)
        (tokenizer_decode : list Token -> string)
        (eos_idx : Token) (max_input_length : nat) (rand : nat -> Q)
        (max_steps : Z) (temperature : Q) (prompt : string) :
  (forall (decoding_strategy : list Q -> Q -> outcome Token)
          (st : loop_state) (e : option exn) (i : nat) (entry : step_log),
      generate_run model softmax tokenizer_encode decoding_strategy eos_idx
                   max_input_length rand max_steps temperature prompt
      = (st, e) ->
      nth_error (steps st) i = Some entry ->
      sampled entry = Returned eos_idx ->
      S i = length (steps st) /\
      e = None /\
      concat (running_out st) = seen_input entry /\
      generate model softmax tokenizer_encode tokenizer_decode
               decoding_strategy eos_idx max_input_length rand max_steps
               temperature prompt
      = Returned (tokenizer_decode (seen_input entry))) /\
  (forall s : DecodingStrategy,
      positive_k s ->
      (0 < max_steps)%Z ->
      0 <= rand 0%nat -> rand 0%nat < 1 ->
      all_mass_on eos_idx
        (softmax
           (model (if exceeds max_input_length (tokenizer_encode prompt)
                   then most_recent max_input_length (tokenizer_encode prompt)
                   else tokenizer_encode prompt))
           temperature) ->
      generate model softmax tokenizer_encode tokenizer_decode (sample s)
               eos_idx max_input_length rand max_steps temperature prompt
      = Returned (tokenizer_decode (tokenizer_encode prompt)) /\
      model_invocations model softmax tokenizer_encode (sample s) eos_idx
                        max_input_length rand max_steps temperature prompt
      = [if exceeds max_input_length (tokenizer_encode prompt)
         then most_recent max_input_length (tokenizer_encode prompt)
         else tokenizer_encode prompt]).
Proof.
  split.
  - intros decoding_strategy st e i entry R Hnth Heos.
    eapply eos_entry_is_last; eassumption.
  - intros s Hs Hpos H0 H1 Hmass.
    apply first_step_eos; [assumption|].
    now apply sample_all_mass.
Qed.

Lemma generate_stops_at_eos_witness :
  (exists entry,
      nth_error
        (steps (fst (Stub.generate_run [1#10; 7#10; 1#5] GreedyDecoding 1%nat
                                       2%nat 5 1 "abc"))) 0
      = Some entry /\
      sampled entry = Returned 1%nat /\
      Stub.generate [1#10; 7#10; 1#5] GreedyDecoding 1%nat 2%nat 5 1 "abc"
      = Returned (Stub.decode (seen_input entry))) /\
  Stub.generate [0; 1; 0] (TopKTopPDecoding 2 (3#4)) 1%nat 2%nat 5 1 "abc"
  = Returned (Stub.decode (Stub.encode "abc")) /\
  model_invocations (Stub.model [0; 1; 0]) Stub.softmax Stub.encode
                    (sample (TopKTopPDecoding 2 (3#4))) 1%nat 2%nat
                    Stub.rand 5 1 "abc"
  = [[98; 99]%nat].
Proof.
  split.
  - eexists. split; [reflexivity|]. split; [reflexivity|].
    eapply (proj1 (@generate_stops_at_eos (list Q) (Stub.model [1#10; 7#10; 1#5])
                     Stub.softmax Stub.encode Stub.decode 1%nat 2%nat
                     Stub.rand 5%Z 1 "abc") (sample GreedyDecoding)
                  _ _ 0%nat).
    + reflexivity.
    + reflexivity.
    + reflexivity.
  - apply (proj2 (@generate_stops_at_eos (list Q) (Stub.model [0; 1; 0])
                    Stub.softmax Stub.encode Stub.decode 1%nat 2%nat
                    Stub.rand 5%Z 1 "abc") (TopKTopPDecoding 2 (3#4))).
    + simpl. lia.
    + lia.
    + unfold Stub.rand. lra.
    + unfold Stub.rand. lra.
    + split; [simpl; lia|].
      intros j Hj. destruct j as [|[|[|j]]]; simpl in *; try reflexivity; lia.
Defined.

(** ** Configuration values *)

(** With [k = 0] every entry is zeroed, the sum is zero, and the draw
    raises. *)
Lemma TopK_zero_raises (probs : list Q) (u : Q) :
  TopKDecoding_sample 0 probs u = Raised RuntimeError.
Proof.
  unfold TopKDecoding_sample, TopK_dist, TopK_truncate.
  assert (P := sorted_indices_perm probs).
  destruct (torch_sort_desc probs) as [sorted_probs sorted_indices].
  simpl in P. unfold py_slice_from. simpl.
  set (t := index_fill_zero probs sorted_indices).
  assert (Z : Forall (fun y => y == 0) t).
  { apply Forall_nth_iff. intros j Hj. unfold t in *.
    rewrite index_fill_zero_length in Hj.
    rewrite index_fill_zero_zeroed; [reflexivity|assumption|].
    eapply Permutation_in; [exact P|]. apply in_seq. lia. }
  apply tensor_sum_zero in Z. unfold div_by_sum.
  assert (E : Qeq_bool (tensor_sum t) 0 = true) by now apply Qeq_bool_iff.
  rewrite E. destruct t; reflexivity.
Qed.

(** C2, as the code has it.  No configuration value is validated.  The
    constructors store [k] and [p] as given and never raise.  [generate]
    checks neither [max_steps] nor [temperature] before its loop: with
    [max_steps <= 0] it returns the decoding of the encoded prompt without
    invoking the model, and with [max_steps > 0] its first iteration invokes
    the model, whatever the temperature.  [k = 0] shows only inside
    [TopKDecoding.sample], where the draw raises. *)
Theorem configuration_is_not_validated :
  (forall k, TopKDecoding_init k = Returned (TopKDecoding k)) /\
  (forall p, TopPDecoding_init p = Returned (TopPDecoding p)) /\
  (forall k p, TopKTopPDecoding_init k p = Returned (TopKTopPDecoding k p)) /\
  (forall (Logits : Type) (model : list Token -> Logits)
          (softmax : Logits -> Q -> list Q)
          (tokenizer_encode : string -> list Token)
          (tokenizer_decode : list Token -> string)
          (decoding_strategy : list Q -> Q -> outcome Token)
          (eos_idx : Token) (max_input_length : nat) (rand : nat -> Q)
          (max_steps : Z) (temperature : Q) (prompt : string),
      ((max_steps <= 0)%Z ->
       generate model softmax tokenizer_encode tokenizer_decode
                decoding_strategy eos_idx max_input_length rand max_steps
                temperature prompt
       = Returned (tokenizer_decode (tokenizer_encode prompt)) /\
       model_invocations model softmax tokenizer_encode decoding_strategy
                         eos_idx max_input_length rand max_steps temperature
                         prompt = []) /\
      ((0 < max_steps)%Z ->
       exists later,
         model_invocations model softmax tokenizer_encode decoding_strategy
                           eos_idx max_input_length rand max_steps temperature
                           prompt
         = (if exceeds max_input_length (tokenizer_encode prompt)
            then most_recent max_input_length (tokenizer_encode prompt)
            else tokenizer_encode prompt) :: later)) /\
  (forall probs u, TopKDecoding_sample 0 probs u = Raised RuntimeError).
Proof.
  repeat split; trivial.
  - now apply generate_no_steps.
  - now apply generate_no_steps.
  - now apply generate_first_invocation.
  - apply TopK_zero_raises.
Qed.

Lemma configuration_is_not_validated_witness :
  (Stub.generate [1#10; 7#10; 1#5] (TopKDecoding 0) 0%nat 2%nat (-1) 0 "abc"
   = Returned (Stub.decode (Stub.encode "abc")) /\
   model_invocations (Stub.model [1#10; 7#10; 1#5]) Stub.softmax Stub.encode
                     (sample (TopKDecoding 0)) 0%nat 2%nat Stub.rand (-1) 0
                     "abc" = []) /\
  exists later,
    model_invocations (Stub.model [1#10; 7#10; 1#5]) Stub.softmax Stub.encode
                      (sample GreedyDecoding) 0%nat 2%nat Stub.rand 3 0 "abc"
    = [98; 99]%nat :: later.
Proof.
  split.
  - apply (proj1 (proj1 (proj2 (proj2 (proj2 configuration_is_not_validated)))
                    (list Q) (Stub.model [1#10; 7#10; 1#5]) Stub.softmax
                    Stub.encode Stub.decode (sample (TopKDecoding 0)) 0%nat
                    2%nat Stub.rand (-1)%Z 0 "abc"%string)).
    lia.
  - apply (proj2 (proj1 (proj2 (proj2 (proj2 configuration_is_not_validated)))
                    (list Q) (Stub.model [1#10; 7#10; 1#5]) Stub.softmax
                    Stub.encode Stub.decode (sample GreedyDecoding) 0%nat
                    2%nat Stub.rand 3%Z 0 "abc"%string)).
    lia.
Defined.

(** C2, as stated, fails: [k = 0] and [p = 2] are accepted by the
    constructors, a negative [max_steps] and a zero [temperature] are
    accepted by [generate], which returns the decoded prompt, and a
    negative [k] is not even an error of [sample]. *)
Lemma invalid_configuration_accepted :
  is_raised (TopKDecoding_init 0) = false /\
  is_raised (TopPDecoding_init 2) = false /\
  is_raised (TopKTopPDecoding_init 0 2) = false /\
  Stub.generate [1#10; 7#10; 1#5] GreedyDecoding 0%nat 8%nat (-1) 1 "abc"
  = Returned "abc"%string /\
  Stub.generate [1#10; 7#10; 1#5] GreedyDecoding 0%nat 8%nat (-1) 0 "abc"
  = Returned "abc"%string /\
  TopKDecoding_sample (-1) [4#10; 3#10; 2#10; 1#10] (1#2) = Returned 1%nat.
Proof.
  repeat split; reflexivity.
Qed.

(** ** Concrete runs *)

Lemma step_budget_exhausted_witness :
  exists st,
    Stub.generate_run [1#10; 7#10; 1#5] GreedyDecoding 0%nat 2%nat 5 1 "abc"
    = (st, None) /\
    length (model_invocations (Stub.model [1#10; 7#10; 1#5]) Stub.softmax
              Stub.encode (sample GreedyDecoding) 0%nat 2%nat Stub.rand 5 1
              "abc") = 5%nat /\
    length (concat (running_out st)) = (length (Stub.encode "abc") + 5)%nat /\
    firstn (length (Stub.encode "abc")) (concat (running_out st))
    = Stub.encode "abc" /\
    Stub.generate [1#10; 7#10; 1#5] GreedyDecoding 0%nat 2%nat 5 1 "abc"
    = Returned (Stub.decode (concat (running_out st))) /\
    (5%Z = 0%Z ->
     model_invocations (Stub.model [1#10; 7#10; 1#5]) Stub.softmax
       Stub.encode (sample GreedyDecoding) 0%nat 2%nat Stub.rand 5 1 "abc"
     = [] /\
     Stub.generate [1#10; 7#10; 1#5] GreedyDecoding 0%nat 2%nat 5 1 "abc"
     = Returned (Stub.decode (Stub.encode "abc"))).
Proof.
  apply (@step_budget_exhausted (list Q) (Stub.model [1#10; 7#10; 1#5])
           Stub.softmax Stub.encode Stub.decode (sample GreedyDecoding)
           0%nat 2%nat Stub.rand 5%Z 1 "abc"%string).
  - lia.
  - intros x u. exists 1%nat. split; [reflexivity|lia].
Defined.

Lemma warning_at_most_once_witness :
  (length (warnings (Stub.model [1#10; 7#10; 1#5]) Stub.softmax Stub.encode
             (sample GreedyDecoding) 0%nat 2%nat Stub.rand 4 1 "ab")
   <= 1)%nat /\
  exists entry,
    nth_error
      (steps (fst (Stub.generate_run [1#10; 7#10; 1#5] GreedyDecoding 0%nat
                                     2%nat 4 1 "ab"))) 2 = Some entry /\
    length (seen_input entry) = 4%nat /\
    warned entry = false.
Proof.
  destruct (@warning_at_most_once (list Q) (Stub.model [1#10; 7#10; 1#5])
              Stub.softmax Stub.encode (sample GreedyDecoding) 0%nat 2%nat
              Stub.rand 4%Z 1 "ab"%string
              (fst (Stub.generate_run [1#10; 7#10; 1#5] GreedyDecoding 0%nat
                                      2%nat 4 1 "ab"))
              (snd (Stub.generate_run [1#10; 7#10; 1#5] GreedyDecoding 0%nat
                                      2%nat 4 1 "ab")))
    as (_ & Hone & _).
  - reflexivity.
  - split; [exact Hone|].
    eexists. split; [reflexivity|]. split; reflexivity.
Defined.

Lemma context_clamp_keeps_record_witness :
  exists entry,
    nth_error
      (steps (fst (Stub.generate_run [1#10; 7#10; 1#5] GreedyDecoding 0%nat
                                     2%nat 3 1 "ab"))) 2 = Some entry /\
    seen_input entry = [97; 98; 1; 1]%nat /\
    view entry = [1; 1]%nat /\
    Stub.generate [1#10; 7#10; 1#5] GreedyDecoding 0%nat 2%nat 3 1 "ab"
    = Returned (Stub.decode [97; 98; 1; 1; 1]%nat).
Proof.
  destruct (@context_clamp_keeps_record (list Q) (Stub.model [1#10; 7#10; 1#5])
              Stub.softmax Stub.encode Stub.decode (sample GreedyDecoding)
              0%nat 2%nat Stub.rand 3%Z 1 "ab"%string
              (fst (Stub.generate_run [1#10; 7#10; 1#5] GreedyDecoding 0%nat
                                      2%nat 3 1 "ab"))
              (snd (Stub.generate_run [1#10; 7#10; 1#5] GreedyDecoding 0%nat
                                      2%nat 3 1 "ab")))
    as (Hentry & _ & Hgen).
  - reflexivity.
  - eexists. split; [reflexivity|].
    destruct (Hentry 2%nat _ eq_refl) as (Hseen & _ & Hview & _).
    split; [exact Hseen|]. split.
    + apply Hview. simpl. lia.
    + apply Hgen. reflexivity.
Defined.

(** * Further properties of the strategies and of the loop *)

(** ** The draw *)

Lemma inverse_cdf_positive (w : list Q) :
  forall t i0 i,
    0 <= t -> inverse_cdf w t i0 = Returned i ->
    (i0 <= i < i0 + length w)%nat /\ 0 < nth (i - i0) w 0.
Proof.
  induction w as [|x w IH]; intros t i0 i Ht H; simpl in H.
  - discriminate.
  - destruct (Qgt_bool x t) eqn:E.
    + inversion H; subst. rewrite Nat.sub_diag. simpl.
      apply Qgt_bool_true in E. split; [lia|lra].
    + apply Qgt_bool_false in E. apply IH in H; [|lra].
      destruct H as [Hr Hp]. split; [simpl; lia|].
      replace (i - i0)%nat with (S (i - S i0)) by lia. exact Hp.
Qed.

Lemma inverse_cdf_total (w : list Q) :
  forall t i0,
    0 <= t -> t < tensor_sum w -> exists i, inverse_cdf w t i0 = Returned i.
Proof.
  induction w as [|x w IH]; intros t i0 Ht H; simpl in *.
  - lra.
  - destruct (Qgt_bool x t) eqn:E; [eauto|].
    apply Qgt_bool_false in E. apply IH; lra.
Qed.

Lemma multinomial_checks (w : list Q) (u : Q) (i : Token) :
  multinomial (Some w) u = Returned i ->
  Forall (fun x => 0 <= x) w /\ 0 < tensor_sum w.
Proof.
  unfold multinomial. intro H.
  destruct (existsb (fun x => Qgt_bool 0 x) w) eqn:N; [discriminate|].
  destruct (Qle_bool (tensor_sum w) 0) eqn:P; [discriminate|]. split.
  - apply existsb_false_Forall in N.
    eapply Forall_impl; [|exact N]. cbv beta. intros x Hx.
    now apply Qgt_bool_false.
  - destruct (Qlt_le_dec 0 (tensor_sum w)) as [L|L]; [assumption|].
    apply Qle_bool_iff in L. congruence.
Qed.

Lemma multinomial_support (w : list Q) (u : Q) (i : Token) :
  0 <= u -> multinomial (Some w) u = Returned i ->
  (i < length w)%nat /\ 0 < nth i w 0.
Proof.
  intros Hu H. destruct (multinomial_checks _ _ H) as [_ Hs].
  unfold multinomial in H.
  destruct (existsb _ w || Qle_bool (tensor_sum w) 0); [discriminate|].
  apply inverse_cdf_positive in H.
  - rewrite Nat.sub_0_r in H. destruct H as [Hr Hp]. split; [lia|assumption].
  - apply Qmult_le_0_compat; lra.
Qed.

Lemma multinomial_total (w : list Q) (u : Q) :
  Forall (fun x => 0 <= x) w -> 0 < tensor_sum w -> 0 <= u -> u < 1 ->
  exists i, multinomial (Some w) u = Returned i.
Proof.
  intros Hnn Hs H0 H1. unfold multinomial.
  assert (N : existsb (fun x => Qgt_bool 0 x) w = false).
  { apply existsb_false_Forall.
    eapply Forall_impl; [|exact Hnn]. cbv beta. intros x Hx.
    now apply Qgt_bool_false. }
  assert (P : Qle_bool (tensor_sum w) 0 = false).
  { destruct (Qle_bool (tensor_sum w) 0) eqn:E; [|reflexivity].
    apply Qle_bool_iff in E. lra. }
  rewrite N, P. simpl. apply inverse_cdf_total.
  - apply Qmult_le_0_compat; lra.
  - assert (M := @Qmult_lt_compat_r u 1 (tensor_sum w) Hs H1). lra.
Qed.

(** X1. [RandomDecoding.sample] raises exactly on a tensor with a negative
    entry or without positive mass; on any other tensor, and for every
    uniform number in [0,1), it returns an index in range whose entry is
    positive. *)
Theorem RandomDecoding_draws_positive_mass (probs : list Q) (u : Q) :
  0 <= u -> u < 1 ->
  (Forall (fun x => 0 <= x) probs -> 0 < tensor_sum probs ->
   exists i, RandomDecoding_sample probs u = Returned i /\
             (i < length probs)%nat /\ 0 < nth i probs 0) /\
  (Exists (fun x => x < 0) probs \/ tensor_sum probs <= 0 ->
   RandomDecoding_sample probs u = Raised RuntimeError).
Proof.
  intros H0 H1. unfold RandomDecoding_sample. split.
  - intros Hnn Hs. destruct (multinomial_total Hnn Hs H0 H1) as (i & Hi).
    exists i. split; [exact Hi|]. eapply multinomial_support; eassumption.
  - intro H. destruct (multinomial (Some probs) u) as [i|e] eqn:E.
    + exfalso. destruct (multinomial_checks _ _ E) as [Hnn Hs].
      destruct H as [H|H]; [|lra].
      apply Exists_exists in H. destruct H as (x & Hx & Hneg).
      rewrite Forall_forall in Hnn. specialize (Hnn x Hx). cbv beta in Hnn. lra.
    + unfold multinomial in E.
      destruct (existsb _ probs || Qle_bool (tensor_sum probs) 0).
      * congruence.
      * clear - E. revert E. generalize (u * tensor_sum probs) 0%nat.
        induction probs as [|x w IH]; intros t n E; simpl in E.
        -- congruence.
        -- destruct (Qgt_bool x t); [discriminate|]. now apply IH in E.
Qed.

Lemma RandomDecoding_draws_positive_mass_witness :
  (exists i, RandomDecoding_sample [1#10; 7#10; 1#5] (1#2) = Returned i /\
             (i < 3)%nat /\ 0 < nth i [1#10; 7#10; 1#5] 0) /\
  RandomDecoding_sample [0; 0] (1#2) = Raised RuntimeError.
Proof.
  split.
  - apply (proj1 (@RandomDecoding_draws_positive_mass [1#10; 7#10; 1#5] (1#2)
                    ltac:(lra) ltac:(lra))).
    + repeat constructor; discriminate.
    + reflexivity.
  - apply (proj2 (@RandomDecoding_draws_positive_mass [0; 0] (1#2)
                    ltac:(lra) ltac:(lra))).
    right. discriminate.
Defined.

Unset Implicit Arguments.

(** ** Top-k decoding: what is kept *)

Lemma py_slice_from_skipn (k : Z) (l : list nat) :
  py_slice_from k l = skipn (slice_start k (length l)) l.
Proof.
  unfold py_slice_from, slice_start. now destruct (k <? 0)%Z.
Qed.

Lemma sorted_indices_In (probs : list Q) (j : nat) :
  In j (snd (torch_sort_desc probs)) <-> (j < length probs)%nat.
Proof.
  assert (P := sorted_indices_perm probs). split; intro H.
  - apply Permutation_sym in P. apply (Permutation_in _ P) in H.
    apply in_seq in H. lia.
  - apply (Permutation_in _ P). apply in_seq. lia.
Qed.

Lemma NoDup_app_disjoint (l1 l2 : list nat) (x : nat) :
  NoDup (l1 ++ l2) -> In x l1 -> ~ In x l2.
Proof.
  induction l1 as [|a l1 IH]; simpl; intros N H1 H2; [contradiction|].
  inversion N; subst. destruct H1 as [->|H1].
  - apply H3. apply in_or_app. now right.
  - now apply IH.
Qed.

(** An index below the length is either among the first [n] sorted indices
    or among the others, and not both. *)
Lemma sorted_split (probs : list Q) (n j : nat) :
  (j < length probs)%nat ->
  (In j (firstn n (snd (torch_sort_desc probs))) /\
   ~ In j (skipn n (snd (torch_sort_desc probs)))) \/
  (~ In j (firstn n (snd (torch_sort_desc probs))) /\
   In j (skipn n (snd (torch_sort_desc probs)))).
Proof.
  intro Hj. apply sorted_indices_In in Hj.
  assert (N := sorted_indices_NoDup probs).
  rewrite <- (firstn_skipn n (snd (torch_sort_desc probs))) in Hj, N.
  apply in_app_or in Hj. destruct Hj as [H|H].
  - left. split; [assumption|]. now apply (NoDup_app_disjoint _ _ _ N).
  - right. split; [|assumption]. intro H'.
    now apply (NoDup_app_disjoint _ _ _ N H').
Qed.

Lemma StronglySorted_app_cross (A : Type) (R : A -> A -> Prop)
      (l1 l2 : list A) (a b : A) :
  StronglySorted R (l1 ++ l2) -> In a l1 -> In b l2 -> R a b.
Proof.
  induction l1 as [|x l1 IH]; simpl; intros S Ha Hb; [contradiction|].
  apply StronglySorted_inv in S. destruct S as [S F].
  destruct Ha as [->|Ha].
  - rewrite Forall_forall in F. apply F. apply in_or_app. now right.
  - now apply IH.
Qed.

(** Every entry at one of the first [n] sorted indices is at least every
    entry at a later sorted index. *)
Lemma sorted_prefix_dominates (probs : list Q) (n j j' : nat) :
  In j (firstn n (snd (torch_sort_desc probs))) ->
  In j' (skipn n (snd (torch_sort_desc probs))) ->
  nth j' probs 0 <= nth j probs 0.
Proof.
  unfold torch_sort_desc; simpl. rewrite firstn_map, skipn_map.
  intros Hj Hj'. apply in_map_iff in Hj, Hj'.
  destruct Hj as ([v i] & Ei & Hin). destruct Hj' as ([v' i'] & Ei' & Hin').
  simpl in Ei, Ei'. subst i i'.
  assert (S := sort_strongly_sorted probs).
  assert (P := ProbSort.Permuted_sort (enumerate probs)).
  rewrite <- (firstn_skipn n (ProbSort.sort (enumerate probs))) in S.
  assert (L := StronglySorted_app_cross _ _ _ _ _ _ S Hin Hin').
  unfold is_true in L. apply leb_true_iff in L. simpl in L.
  assert (Hv : nth j probs 0 = v).
  { apply enumerate_In. apply (Permutation_in _ (Permutation_sym P)).
    rewrite <- (firstn_skipn n (ProbSort.sort (enumerate probs))).
    apply in_or_app. now left. }
  assert (Hv' : nth j' probs 0 = v').
  { apply enumerate_In. apply (Permutation_in _ (Permutation_sym P)).
    rewrite <- (firstn_skipn n (ProbSort.sort (enumerate probs))).
    apply in_or_app. now right. }
  rewrite Hv, Hv'. destruct L as [[L _]|L]; lra.
Qed.

Lemma candidates_In (t : list Q) (j : nat) :
  In j (candidates t) <-> (j < length t)%nat /\ 0 < nth j t 0.
Proof.
  unfold candidates. rewrite in_map_iff. split.
  - intros ([v i] & E & H). simpl in E. subst i.
    apply filter_In in H. destruct H as [H P]. simpl in P.
    apply enumerate_In in H. destruct H as [Hj Hv].
    apply Qgt_bool_true in P. rewrite Hv. auto.
  - intros [Hj P]. exists (nth j t 0, j). split; [reflexivity|].
    apply filter_In. split.
    + apply enumerate_In. auto.
    + simpl. now apply Qgt_bool_true.
Qed.

Lemma NoDup_map_snd_filter (f : Q * nat -> bool) (l : list (Q * nat)) :
  NoDup (map snd l) -> NoDup (map snd (filter f l)).
Proof.
  induction l as [|a l IH]; simpl; intro N; [constructor|].
  inversion N; subst. destruct (f a); simpl; [|now apply IH].
  constructor; [|now apply IH].
  intro H. apply H1. apply in_map_iff in H. destruct H as (b & E & H).
  apply filter_In in H. destruct H as [H _].
  apply in_map_iff. now exists b.
Qed.

Lemma candidates_NoDup (t : list Q) : NoDup (candidates t).
Proof.
  unfold candidates. apply NoDup_map_snd_filter.
  unfold enumerate. rewrite map_snd_combine_seq. apply seq_NoDup.
Qed.

(** X2. [TopKDecoding.sample] zeroes the sorted indices from position
    [slice_start k V] on, where [V] is the length of [probs]: [k] itself for
    [k >= 0] and [max 0 (V + k)] for a negative [k], which Python counts
    from the end.  The entries at the sorted indices before that position
    keep their values, every other entry becomes 0, there are
    [min (slice_start k V) V] kept indices, and so at most [slice_start k V]
    candidates. *)
Theorem TopK_keeps_first_sorted (k : Z) (probs : list Q) :
  let sorted_indices := snd (torch_sort_desc probs) in
  let n := slice_start k (length probs) in
  (forall j, In j (firstn n sorted_indices) ->
             nth j (TopK_truncate k probs) 0 = nth j probs 0) /\
  (forall j, (j < length probs)%nat -> ~ In j (firstn n sorted_indices) ->
             nth j (TopK_truncate k probs) 0 = 0) /\
  length (firstn n sorted_indices) = Nat.min n (length probs) /\
  (length (candidates (TopK_truncate k probs)) <= n)%nat.
Proof.
  intros sorted_indices n.
  destruct (sorted_lengths probs) as [_ L].
  assert (T : TopK_truncate k probs =
              index_fill_zero probs (skipn n sorted_indices)).
  { unfold TopK_truncate, sorted_indices, n.
    destruct (torch_sort_desc probs) as [sp si] eqn:E. simpl in *.
    now rewrite py_slice_from_skipn, L. }
  assert (Hkept : forall j, In j (firstn n sorted_indices) ->
                   nth j (TopK_truncate k probs) 0 = nth j probs 0).
  { intros j Hj.
    assert (Hlt : (j < length probs)%nat).
    { apply sorted_indices_In. fold sorted_indices.
      rewrite <- (firstn_skipn n sorted_indices). apply in_or_app. now left. }
    rewrite T. apply index_fill_zero_kept; [assumption|].
    destruct (sorted_split probs n j Hlt) as [[_ H]|[H _]];
      [exact H|contradiction]. }
  assert (Hzero : forall j, (j < length probs)%nat ->
                   ~ In j (firstn n sorted_indices) ->
                   nth j (TopK_truncate k probs) 0 = 0).
  { intros j Hlt Hn. rewrite T. apply index_fill_zero_zeroed; [assumption|].
    destruct (sorted_split probs n j Hlt) as [[H _]|[_ H]];
      [contradiction|exact H]. }
  repeat split; trivial.
  - rewrite length_firstn. unfold sorted_indices. now rewrite L.
  - apply Nat.le_trans with (length (firstn n sorted_indices));
      [|apply firstn_le_length].
    apply NoDup_incl_length; [apply candidates_NoDup|].
    intros j Hj. apply candidates_In in Hj. destruct Hj as [Hlt Hpos].
    rewrite T, index_fill_zero_length in Hlt.
    destruct (sorted_split probs n j Hlt) as [[H _]|[H _]]; [exact H|].
    exfalso. rewrite (Hzero j Hlt H) in Hpos. lra.
Qed.

Lemma TopK_keeps_first_sorted_witness :
  nth 1 (TopK_truncate 2 [2#10; 4#10; 3#10; 1#10]) 0 =
  nth 1 [2#10; 4#10; 3#10; 1#10] 0.
Proof.
  apply (proj1 (TopK_keeps_first_sorted 2 [2#10; 4#10; 3#10; 1#10]) 1%nat).
  vm_compute. now left.
Defined.

(** X3. Every entry [TopKDecoding.sample] zeroes is at most every entry it
    keeps: the kept entries are the greatest ones. *)
Theorem TopK_keeps_the_greatest (k : Z) (probs : list Q) (j j' : nat) :
  (j < length probs)%nat ->
  ~ In j (py_slice_from k (snd (torch_sort_desc probs))) ->
  In j' (py_slice_from k (snd (torch_sort_desc probs))) ->
  nth j' probs 0 <= nth j probs 0.
Proof.
  destruct (sorted_lengths probs) as [_ L].
  rewrite py_slice_from_skipn, L. intros Hlt Hn Hin.
  destruct (sorted_split probs (slice_start k (length probs)) j Hlt)
    as [[H _]|[_ H]]; [|contradiction].
  now apply (sorted_prefix_dominates probs _ _ _ H Hin).
Qed.

Lemma TopK_keeps_the_greatest_witness :
  nth 3 [2#10; 4#10; 3#10; 1#10] 0 <= nth 0 [2#10; 4#10; 3#10; 1#10] 0.
Proof.
  apply (@TopK_keeps_the_greatest 3 [2#10; 4#10; 3#10; 1#10] 0%nat 3%nat).
  - simpl. lia.
  - vm_compute. intros [H|H]; [discriminate|exact H].
  - vm_compute. now left.
Defined.

(** ** Renormalisation *)

Lemma tensor_sum_map_div (t : list Q) (s : Q) :
  tensor_sum (map (fun x => x / s) t) == tensor_sum t / s.
Proof.
  induction t as [|x t IH]; simpl.
  - unfold Qdiv. ring.
  - rewrite IH. unfold Qdiv. ring.
Qed.

Lemma div_by_sum_cases (t d : list Q) :
  div_by_sum t = Some d ->
  (t = [] /\ d = []) \/
  (~ tensor_sum t == 0 /\ d = map (fun x => x / tensor_sum t) t).
Proof.
  unfold div_by_sum. destruct (Qeq_bool (tensor_sum t) 0) eqn:E.
  - destruct t; [|discriminate]. intro H. inversion H. now left.
  - intro H. inversion H. right. split; [|reflexivity].
    now apply Qeq_bool_neq.
Qed.


Lemma div_by_sum_valid (t : list Q) :
  Forall (fun x => 0 <= x) t -> 0 < tensor_sum t ->
  exists d, div_by_sum t = Some d /\
            Forall (fun x => 0 <= x) d /\ tensor_sum d == 1 /\
            length d = length t.
Proof.
  intros Hnn Hs. exists (map (fun x => x / tensor_sum t) t).
  split; [now apply div_by_sum_pos|]. split; [|split].
  - apply Forall_map. eapply Forall_impl; [|exact Hnn]. cbv beta.
    intros x Hx. apply Qle_shift_div_l; [assumption|]. lra.
  - rewrite tensor_sum_map_div. field. lra.
  - apply length_map.
Qed.

Lemma Forall2_Qeq_refl (w : list Q) : Forall2 Qeq w w.
Proof.
  induction w; constructor; [reflexivity|assumption].
Qed.

(** Dividing the weights and the target by the same positive number does
    not change the index found. *)
Lemma inverse_cdf_scale (s : Q) (w : list Q) :
  0 < s ->
  forall t i,
    inverse_cdf (map (fun x => x / s) w) (t / s) i = inverse_cdf w t i.
Proof.
  intro Hs. induction w as [|x w IH]; intros t i; simpl; [reflexivity|].
  assert (G : Qgt_bool (x / s) (t / s) = Qgt_bool x t).
  { assert (Hi : 0 < / s) by now apply Qinv_lt_0_compat.
    destruct (Qgt_bool x t) eqn:E.
    - apply Qgt_bool_true in E. apply Qgt_bool_true. unfold Qdiv.
      now apply Qmult_lt_r.
    - apply Qgt_bool_false in E. apply Qgt_bool_false. unfold Qdiv.
      now apply Qmult_le_r. }
  rewrite G. destruct (Qgt_bool x t); [reflexivity|].
  rewrite <- IH. apply inverse_cdf_compat; [apply Forall2_Qeq_refl|].
  unfold Qdiv. ring.
Qed.

(** On a tensor without negative entries the draw after [probs /
    probs.sum()] is the draw on the tensor itself. *)
Lemma multinomial_div (t : list Q) (u : Q) :
  Forall (fun x => 0 <= x) t ->
  multinomial (div_by_sum t) u = multinomial (Some t) u.
Proof.
  intro Hnn. assert (S0 := @tensor_sum_nonneg t Hnn).
  unfold div_by_sum. destruct (Qeq_bool (tensor_sum t) 0) eqn:E.
  - destruct t as [|x t]; [reflexivity|].
    apply Qeq_bool_iff in E. unfold multinomial.
    assert (P : Qle_bool (tensor_sum (x :: t)) 0 = true)
      by (apply Qle_bool_iff; lra).
    rewrite P. now rewrite orb_true_r.
  - apply Qeq_bool_neq in E.
    assert (Hs : 0 < tensor_sum t) by lra.
    destruct (div_by_sum_valid t Hnn Hs) as (d & Hd & Hdnn & Hdsum & _).
    rewrite div_by_sum_pos in Hd by assumption. inversion Hd as [Ed].
    rewrite Ed. unfold multinomial.
    assert (N : forall w, Forall (fun x => 0 <= x) w ->
                 existsb (fun x => Qgt_bool 0 x) w = false).
    { intros w Hw. apply existsb_false_Forall.
      eapply Forall_impl; [|exact Hw]. cbv beta. intros x Hx.
      now apply Qgt_bool_false. }
    rewrite (N d Hdnn), (N t Hnn).
    assert (P : forall a, 0 < a -> Qle_bool a 0 = false).
    { intros a Ha. destruct (Qle_bool a 0) eqn:L; [|reflexivity].
      apply Qle_bool_iff in L. lra. }
    rewrite (P (tensor_sum d)) by lra. rewrite (P (tensor_sum t) Hs). simpl.
    rewrite <- Ed.
    rewrite <- (inverse_cdf_scale (tensor_sum t) t Hs (u * tensor_sum t) 0%nat).
    apply inverse_cdf_compat; [apply Forall2_Qeq_refl|].
    rewrite Ed, Hdsum. field. lra.
Qed.

Lemma TopP_truncate_length (p : Q) (probs t : list Q) :
  TopP_truncate p probs = Returned t ->
  probs <> [] /\ length t = length probs.
Proof.
  intro H. destruct probs as [|x probs]; [discriminate|].
  split; [discriminate|].
  destruct (@sort_nonempty (x :: probs) ltac:(discriminate))
    as (v0 & i0 & r & E).
  rewrite (@TopP_truncate_unfold p _ v0 i0 r E) in H. inversion H.
  apply index_fill_zero_length.
Qed.





(** X5. With [k] at least the length of [probs], [TopKDecoding.sample]
    zeroes nothing, and on a tensor without negative entries it returns,
    or raises, exactly as [RandomDecoding.sample] does. *)
Theorem TopK_all_is_RandomDecoding (k : Z) (probs : list Q) (u : Q) :
  (Z.of_nat (length probs) <= k)%Z ->
  Forall (fun x => 0 <= x) probs ->
  TopK_truncate k probs = probs /\
  TopKDecoding_sample k probs u = RandomDecoding_sample probs u.
Proof.
  intros Hk Hnn.
  assert (T : TopK_truncate k probs = probs).
  { unfold TopK_truncate. destruct (sorted_lengths probs) as [_ L].
    destruct (torch_sort_desc probs) as [sp si]. simpl in L.
    rewrite py_slice_from_skipn, skipn_all2.
    - apply index_fill_zero_nil.
    - unfold slice_start. rewrite L.
      assert (C : (k <? 0)%Z = false) by (apply Z.ltb_ge; lia).
      rewrite C. lia. }
  split; [exact T|].
  unfold TopKDecoding_sample, TopK_dist, RandomDecoding_sample.
  rewrite T. now apply multinomial_div.
Qed.

Lemma TopK_all_is_RandomDecoding_witness :
  TopK_truncate 3 [1#10; 7#10; 1#5] = [1#10; 7#10; 1#5] /\
  TopKDecoding_sample 3 [1#10; 7#10; 1#5] (1#2) =
  RandomDecoding_sample [1#10; 7#10; 1#5] (1#2).
Proof.
  apply (TopK_all_is_RandomDecoding 3 [1#10; 7#10; 1#5] (1#2)).
  - simpl. lia.
  - repeat constructor; discriminate.
Defined.

(** ** What the strategies can return *)

Lemma nth_map_div (t : list Q) (s : Q) (i : nat) :
  (i < length t)%nat -> nth i (map (fun x => x / s) t) 0 = nth i t 0 / s.
Proof.
  intro Hi. rewrite (nth_indep _ 0 ((fun x => x / s) 0))
    by (now rewrite length_map).
  apply (map_nth (fun x => x / s)).
Qed.

Lemma Qdiv_pos_inv (x s : Q) : 0 < s -> 0 < x / s -> 0 < x.
Proof.
  intros Hs H. assert (E : x == (x / s) * s) by (field; lra).
  rewrite E. now apply Qmult_lt_0_compat.
Qed.

Lemma div_draw_support (t : list Q) (u : Q) (i : Token) :
  Forall (fun x => 0 <= x) t -> 0 <= u ->
  multinomial (div_by_sum t) u = Returned i ->
  (i < length t)%nat /\ 0 < nth i t 0.
Proof.
  intros Hnn Hu H. rewrite multinomial_div in H by assumption.
  eapply multinomial_support; eassumption.
Qed.

Lemma fill_positive (probs : list Q) (idxs : list nat) (i : nat) :
  (i < length probs)%nat ->
  0 < nth i (index_fill_zero probs idxs) 0 ->
  ~ In i idxs /\ 0 < nth i probs 0.
Proof.
  intros Hi H. rewrite index_fill_zero_nth in H by assumption.
  destruct (existsb (Nat.eqb i) idxs) eqn:E; [lra|]. split; [|assumption].
  intro Hin. assert (T : existsb (Nat.eqb i) idxs = true); [|congruence].
  apply existsb_exists. exists i. split; [assumption|apply Nat.eqb_refl].
Qed.

Lemma TopP_truncate_fill (p : Q) (probs t : list Q) :
  TopP_truncate p probs = Returned t ->
  exists idxs, t = index_fill_zero probs idxs.
Proof.
  intro H. destruct probs as [|x probs]; [discriminate|].
  destruct (@sort_nonempty (x :: probs) ltac:(discriminate))
    as (v0 & i0 & r & E).
  rewrite (@TopP_truncate_unfold p _ v0 i0 r E) in H. inversion H. eauto.
Qed.

Lemma TopK_draw_support (k : Z) (probs : list Q) (u : Q) (i : Token) :
  Forall (fun x => 0 <= x) probs -> 0 <= u ->
  TopKDecoding_sample k probs u = Returned i ->
  (i < length probs)%nat /\ 0 < nth i probs 0 /\
  ~ In i (py_slice_from k (snd (torch_sort_desc probs))).
Proof.
  intros Hnn Hu H. unfold TopKDecoding_sample, TopK_dist in H.
  assert (T : TopK_truncate k probs =
              index_fill_zero probs
                (py_slice_from k (snd (torch_sort_desc probs)))).
  { unfold TopK_truncate. now destruct (torch_sort_desc probs). }
  rewrite T in H. apply div_draw_support in H; trivial.
  - rewrite index_fill_zero_length in H. destruct H as [Hi Hp].
    destruct (fill_positive _ _ _ Hi Hp). auto.
  - now apply index_fill_zero_nonneg.
Qed.

Lemma TopP_draw_support (p : Q) (probs : list Q) (u : Q) (i : Token) :
  Forall (fun x => 0 <= x) probs -> 0 <= u ->
  TopPDecoding_sample p probs u = Returned i ->
  (i < length probs)%nat /\ 0 < nth i probs 0.
Proof.
  intros Hnn Hu H. unfold TopPDecoding_sample, TopP_dist in H.
  destruct (TopP_truncate p probs) as [t|e] eqn:E; [|discriminate].
  simpl in H. destruct (TopP_truncate_fill _ _ _ E) as (idxs & ->).
  apply div_draw_support in H; trivial.
  - rewrite index_fill_zero_length in H. destruct H as [Hi Hp].
    destruct (fill_positive _ _ _ Hi Hp). auto.
  - now apply index_fill_zero_nonneg.
Qed.

Lemma TopK_dist_nonneg (k : Z) (probs d : list Q) :
  Forall (fun x => 0 <= x) probs -> TopK_dist k probs = Some d ->
  Forall (fun x => 0 <= x) d.
Proof.
  intros Hnn H. unfold TopK_dist in H.
  assert (Tnn : Forall (fun x => 0 <= x) (TopK_truncate k probs)).
  { unfold TopK_truncate. destruct (torch_sort_desc probs).
    now apply index_fill_zero_nonneg. }
  apply div_by_sum_cases in H. destruct H as [[_ ->]|[Hs ->]]; [constructor|].
  assert (S0 := @tensor_sum_nonneg _ Tnn).
  apply Forall_map. eapply Forall_impl; [|exact Tnn]. cbv beta.
  intros x Hx. apply Qle_shift_div_l; lra.
Qed.

Lemma TopKTopP_draw_support (k : Z) (p : Q) (probs : list Q) (u : Q)
      (i : Token) :
  Forall (fun x => 0 <= x) probs -> 0 <= u ->
  TopKTopPDecoding_sample k p probs u = Returned i ->
  (i < length probs)%nat /\ 0 < nth i probs 0 /\
  ~ In i (py_slice_from k (snd (torch_sort_desc probs))).
Proof.
  intros Hnn Hu H. unfold TopKTopPDecoding_sample in H.
  rewrite TopKTopP_dist_unfold in H. unfold TopK_then_TopP_dist in H.
  destruct (TopK_dist k probs) as [d1|] eqn:E1; [|discriminate].
  assert (Hd1 := TopK_dist_nonneg _ _ _ Hnn E1).
  fold (TopPDecoding_sample p d1 u) in H.
  apply TopP_draw_support in H; trivial. destruct H as [Hi Hp].
  assert (T : TopK_truncate k probs =
              index_fill_zero probs
                (py_slice_from k (snd (torch_sort_desc probs)))).
  { unfold TopK_truncate. now destruct (torch_sort_desc probs). }
  unfold TopK_dist in E1. apply div_by_sum_cases in E1.
  destruct E1 as [[_ ->]|[Hs ->]]; [simpl in Hi; lia|].
  rewrite length_map in Hi. rewrite nth_map_div in Hp by assumption.
  assert (Tnn : Forall (fun x => 0 <= x) (TopK_truncate k probs)).
  { rewrite T. now apply index_fill_zero_nonneg. }
  assert (S0 := @tensor_sum_nonneg _ Tnn).
  apply Qdiv_pos_inv in Hp; [|lra].
  rewrite T in Hi, Hp. rewrite index_fill_zero_length in Hi.
  destruct (fill_positive _ _ _ Hi Hp). auto.
Qed.

Lemma sample_support (s : DecodingStrategy) (probs : list Q) (u : Q)
      (i : Token) :
  Forall (fun x => 0 <= x) probs -> 0 <= u ->
  sample s probs u = Returned i ->
  (i < length probs)%nat /\ (s <> GreedyDecoding -> 0 < nth i probs 0).
Proof.
  intros Hnn Hu H. destruct s as [| |k|p|k p]; simpl in H.
  - split; [|congruence]. unfold GreedyDecoding_sample in H.
    assert (Hne : probs <> []) by (intros ->; discriminate).
    destruct (@argmax_first_maximum probs Hne) as (j & Hj & Hlt & _).
    congruence.
  - unfold RandomDecoding_sample in H.
    destruct (@multinomial_support probs u i Hu H). auto.
  - destruct (TopK_draw_support _ _ _ _ Hnn Hu H) as (A & B & _). auto.
  - destruct (TopP_draw_support _ _ _ _ Hnn Hu H). auto.
  - destruct (TopKTopP_draw_support _ _ _ _ _ Hnn Hu H) as (A & B & _). auto.
Qed.

(** X6. Whatever a strategy returns is an index of [probs]; and on a tensor
    without negative entries the four sampling strategies return only
    indices whose entry was positive in the input. *)
Theorem sampled_token_has_mass (s : DecodingStrategy) (probs : list Q)
        (u : Q) (i : Token) :
  Forall (fun x => 0 <= x) probs -> 0 <= u ->
  sample s probs u = Returned i ->
  (i < length probs)%nat /\ (s <> GreedyDecoding -> 0 < nth i probs 0).
Proof.
  exact (sample_support s probs u i).
Qed.

Lemma sampled_token_has_mass_witness :
  (1 < length [0#1; 7#10; 3#10])%nat /\
  (TopPDecoding (1#2) <> GreedyDecoding -> 0 < nth 1 [0; 7#10; 3#10] 0).
Proof.
  apply (sampled_token_has_mass (TopPDecoding (1#2)) [0; 7#10; 3#10] (9#10)).
  - repeat constructor; discriminate.
  - lra.
  - reflexivity.
Defined.

(** X7. A token returned by [TopKDecoding(k)] or by
    [TopKTopPDecoding(k, p)] on a tensor without negative entries is one of
    the first [slice_start k V] sorted indices, the top [k] for [k >= 0]. *)
Theorem TopK_samples_among_top_k (k : Z) (p : Q) (probs : list Q) (u : Q)
        (i : Token) :
  Forall (fun x => 0 <= x) probs -> 0 <= u ->
  TopKDecoding_sample k probs u = Returned i \/
  TopKTopPDecoding_sample k p probs u = Returned i ->
  In i (firstn (slice_start k (length probs)) (snd (torch_sort_desc probs))).
Proof.
  intros Hnn Hu H.
  assert (G : (i < length probs)%nat /\
              ~ In i (py_slice_from k (snd (torch_sort_desc probs)))).
  { destruct H as [H|H].
    - destruct (TopK_draw_support _ _ _ _ Hnn Hu H) as (A & _ & B). auto.
    - destruct (TopKTopP_draw_support _ _ _ _ _ Hnn Hu H) as (A & _ & B).
      auto. }
  destruct G as [Hi Hn]. destruct (sorted_lengths probs) as [_ L].
  rewrite py_slice_from_skipn, L in Hn.
  destruct (sorted_split probs (slice_start k (length probs)) i Hi)
    as [[A _]|[_ B]]; [exact A|contradiction].
Qed.

Lemma TopK_samples_among_top_k_witness :
  In 1%nat (firstn (slice_start 2 (length [2#10; 4#10; 3#10; 1#10]%Q))
                   (snd (torch_sort_desc [2#10; 4#10; 3#10; 1#10]))).
Proof.
  apply (TopK_samples_among_top_k 2 (3#4) [2#10; 4#10; 3#10; 1#10] (1#2) 1%nat).
  - repeat constructor; discriminate.
  - lra.
  - left. reflexivity.
Defined.

(** ** The strategies on a probability tensor *)

Lemma tensor_sum_nonpos (l : list Q) :
  Forall (fun x => x <= 0) l -> tensor_sum l <= 0.
Proof.
  induction 1 as [|x l Hx F IH]; simpl; lra.
Qed.

Lemma top_positive (probs : list Q) (v0 : Q) (i0 : nat) (r : list (Q * nat)) :
  0 < tensor_sum probs ->
  ProbSort.sort (enumerate probs) = (v0, i0) :: r ->
  0 < nth i0 probs 0.
Proof.
  intros Hs E. destruct (@sort_head_max _ _ _ _ E) as (_ & Hv0 & Hmax & _).
  destruct (Qlt_le_dec 0 (nth i0 probs 0)) as [H|H]; [assumption|exfalso].
  assert (F : Forall (fun x => x <= 0) probs).
  { apply Forall_nth_iff. intros j Hj. specialize (Hmax j Hj). cbv beta.
    rewrite Hv0 in H. now apply Qle_trans with v0. }
  apply tensor_sum_nonpos in F. lra.
Qed.

Lemma fill_keeps_mass (probs : list Q) (idxs : list nat) (i0 : nat) :
  Forall (fun x => 0 <= x) probs ->
  (i0 < length probs)%nat -> 0 < nth i0 probs 0 -> ~ In i0 idxs ->
  0 < tensor_sum (index_fill_zero probs idxs).
Proof.
  intros Hnn Hi Hp Hn.
  assert (G := @tensor_sum_ge_nth (index_fill_zero probs idxs) i0
                 (@index_fill_zero_nonneg probs idxs Hnn)).
  rewrite index_fill_zero_kept in G by assumption. lra.
Qed.

Lemma py_slice_from_tail (k : Z) (i0 : nat) (rest : list nat) (x : nat) :
  (1 <= k)%Z -> In x (py_slice_from k (i0 :: rest)) -> In x rest.
Proof.
  intros Hk H. unfold py_slice_from in H.
  assert (C : (k <? 0)%Z = false) by (apply Z.ltb_ge; lia).
  rewrite C in H. destruct (Z.to_nat k) as [|n] eqn:Ek; [lia|].
  simpl in H. now apply In_skipn in H.
Qed.

Lemma TopK_dist_valid (k : Z) (probs : list Q) :
  (1 <= k)%Z -> Forall (fun x => 0 <= x) probs -> 0 < tensor_sum probs ->
  exists d, TopK_dist k probs = Some d /\
            Forall (fun x => 0 <= x) d /\ tensor_sum d == 1 /\
            length d = length probs.
Proof.
  intros Hk Hnn Hs.
  assert (Hne : probs <> []) by (intros ->; simpl in Hs; lra).
  destruct (@sort_nonempty probs Hne) as (v0 & i0 & r & E).
  destruct (@sort_head_max _ _ _ _ E) as (Hi0 & _ & _ & Hnotin).
  assert (Hp := top_positive _ _ _ _ Hs E).
  unfold TopK_dist, TopK_truncate, torch_sort_desc. rewrite E. simpl map.
  destruct (div_by_sum_valid
              (index_fill_zero probs (py_slice_from k (i0 :: map snd r))))
    as (d & Hd & Hdnn & Hdsum & Hdlen).
  - now apply index_fill_zero_nonneg.
  - apply (fill_keeps_mass _ _ i0); trivial.
    intro Hin. apply py_slice_from_tail in Hin; [contradiction|assumption].
  - exists d. rewrite index_fill_zero_length in Hdlen. auto.
Qed.

Lemma TopP_dist_valid (p : Q) (probs : list Q) :
  Forall (fun x => 0 <= x) probs -> 0 < tensor_sum probs ->
  exists d, TopP_dist p probs = Returned (Some d) /\
            Forall (fun x => 0 <= x) d /\ tensor_sum d == 1 /\
            length d = length probs.
Proof.
  intros Hnn Hs.
  assert (Hne : probs <> []) by (intros ->; simpl in Hs; lra).
  destruct (@sort_nonempty probs Hne) as (v0 & i0 & r & E).
  destruct (@sort_head_max _ _ _ _ E) as (Hi0 & _ & _ & Hnotin).
  assert (Hp := top_positive _ _ _ _ Hs E).
  unfold TopP_dist. rewrite (@TopP_truncate_unfold p probs v0 i0 r E). simpl.
  match goal with
  | |- context [div_by_sum ?t] =>
      destruct (div_by_sum_valid t) as (d & Hd & Hdnn & Hdsum & Hdlen)
  end.
  - now apply index_fill_zero_nonneg.
  - apply (fill_keeps_mass _ _ i0); trivial.
    intro Hin. apply masked_select_incl in Hin. contradiction.
  - exists d. rewrite index_fill_zero_length in Hdlen. rewrite Hd. auto.
Qed.

Lemma sample_total (s : DecodingStrategy) (probs : list Q) (u : Q) :
  positive_k s ->
  Forall (fun x => 0 <= x) probs -> 0 < tensor_sum probs ->
  0 <= u -> u < 1 ->
  exists i, sample s probs u = Returned i.
Proof.
  intros Hk Hnn Hs H0 H1. destruct s as [| |k|p|k p]; simpl.
  - assert (Hne : probs <> []) by (intros ->; simpl in Hs; lra).
    destruct (@argmax_first_maximum probs Hne) as (i & Hi & _). eauto.
  - now apply multinomial_total.
  - destruct (TopK_dist_valid k probs Hk Hnn Hs) as (d & Hd & Hdnn & Hds & _).
    unfold TopKDecoding_sample. rewrite Hd.
    apply multinomial_total; trivial. lra.
  - destruct (TopP_dist_valid p probs Hnn Hs) as (d & Hd & Hdnn & Hds & _).
    unfold TopPDecoding_sample. rewrite Hd. simpl.
    apply multinomial_total; trivial. lra.
  - destruct (TopK_dist_valid k probs Hk Hnn Hs)
      as (d1 & Hd1 & Hd1nn & Hd1s & _).
    destruct (TopP_dist_valid p d1 Hd1nn ltac:(lra))
      as (d & Hd & Hdnn & Hds & _).
    unfold TopKTopPDecoding_sample. rewrite TopKTopP_dist_unfold.
    unfold TopK_then_TopP_dist. rewrite Hd1, Hd. simpl.
    apply multinomial_total; trivial. lra.
Qed.

(** X8. On a tensor without negative entries and with positive mass, a
    strategy with [k >= 1] (if it has a [k]) never raises: for every
    uniform number in [0,1) it returns a token. *)
Theorem strategies_return_on_distributions (s : DecodingStrategy)
        (probs : list Q) (u : Q) :
  positive_k s ->
  Forall (fun x => 0 <= x) probs -> 0 < tensor_sum probs ->
  0 <= u -> u < 1 ->
  exists i, sample s probs u = Returned i /\ (i < length probs)%nat.
Proof.
  intros Hk Hnn Hs H0 H1.
  destruct (sample_total s probs u Hk Hnn Hs H0 H1) as (i & Hi).
  exists i. split; [exact Hi|].
  destruct s as [| |k|p|k p]; simpl in Hi.
  - assert (Hne : probs <> []) by (intros ->; simpl in Hs; lra).
    destruct (@argmax_first_maximum probs Hne) as (j & Hj & Hlt & _).
    unfold GreedyDecoding_sample in Hi. congruence.
  - now destruct (@multinomial_support probs u i H0 Hi).
  - now destruct (TopK_draw_support _ _ _ _ Hnn H0 Hi).
  - now destruct (TopP_draw_support _ _ _ _ Hnn H0 Hi).
  - now destruct (TopKTopP_draw_support _ _ _ _ _ Hnn H0 Hi).
Qed.

Lemma strategies_return_on_distributions_witness :
  exists i, sample (TopKTopPDecoding 2 (3#4)) [4#10; 3#10; 2#10; 1#10] (1#2)
            = Returned i /\ (i < 4)%nat.
Proof.
  apply (strategies_return_on_distributions (TopKTopPDecoding 2 (3#4))
           [4#10; 3#10; 2#10; 1#10] (1#2)).
  - simpl. lia.
  - repeat constructor; discriminate.
  - reflexivity.
  - lra.
  - lra.
Defined.

(** ** When only the top token is kept *)

Lemma single_support_div (t : list Q) (i0 : nat) :
  (i0 < length t)%nat -> 0 < nth i0 t 0 ->
  (forall j, (j < length t)%nat -> j <> i0 -> nth j t 0 == 0) ->
  exists d, div_by_sum t = Some d /\ all_mass_on i0 d.
Proof.
  intros Hi Hp Hz. set (v := nth i0 t 0) in *.
  assert (M : all_mass_on i0 (map (fun x => x / v) t)).
  { split; [now rewrite length_map|].
    intros j Hj. rewrite length_map in Hj. rewrite nth_map_div by assumption.
    destruct (Nat.eqb_spec j i0) as [->|Hne].
    - fold v. field. lra.
    - rewrite (Hz j Hj Hne). field. lra. }
  assert (S := @all_mass_on_sum _ _ M). rewrite tensor_sum_map_div in S.
  assert (Sv : tensor_sum t == v).
  { assert (E : tensor_sum t == (tensor_sum t / v) * v) by (field; lra).
    rewrite E, S. ring. }
  exists (map (fun x => x / tensor_sum t) t). split.
  - apply div_by_sum_pos. lra.
  - destruct M as [Ml Mn]. split; [now rewrite length_map|].
    intros j Hj. rewrite length_map in Hj, Ml, Mn.
    rewrite nth_map_div by assumption. rewrite <- (Mn j Hj).
    rewrite nth_map_div by assumption. now rewrite Sv.
Qed.

(** Zeroing every sorted index but the first leaves all the mass on it. *)
Lemma keep_only_top (probs : list Q) (v0 : Q) (i0 : nat)
      (r : list (Q * nat)) :
  0 < tensor_sum probs ->
  ProbSort.sort (enumerate probs) = (v0, i0) :: r ->
  exists d, div_by_sum (index_fill_zero probs (map snd r)) = Some d /\
            all_mass_on i0 d.
Proof.
  intros Hs E.
  destruct (@sort_head_max _ _ _ _ E) as (Hi0 & _ & _ & Hnotin).
  assert (Hp := top_positive _ _ _ _ Hs E).
  apply single_support_div.
  - now rewrite index_fill_zero_length.
  - now rewrite index_fill_zero_kept.
  - intros j Hj Hne. rewrite index_fill_zero_length in Hj.
    rewrite index_fill_zero_zeroed; [reflexivity|assumption|].
    apply sorted_indices_In in Hj. unfold torch_sort_desc in Hj.
    rewrite E in Hj. simpl in Hj. destruct Hj as [Hj|Hj]; [congruence|exact Hj].
Qed.

Lemma cumsum_from_ge (l : list Q) (acc : Q) :
  Forall (fun x => 0 <= x) l ->
  Forall (fun c => acc <= c) (cumsum_from acc l).
Proof.
  intro F. revert acc. induction F as [|x l Hx F IH]; intro acc; simpl.
  - constructor.
  - constructor; [lra|].
    eapply Forall_impl; [|apply IH]. cbv beta. intros c Hc. lra.
Qed.

Lemma masked_select_all_true (idxs : list nat) (mask : list bool) :
  length idxs = length mask -> Forall (fun b => b = true) mask ->
  masked_select idxs mask = idxs.
Proof.
  revert mask. induction idxs as [|i idxs IH]; intros mask L F.
  - reflexivity.
  - destruct mask as [|b mask]; [discriminate|].
    inversion F; subst. unfold masked_select in *. simpl. f_equal.
    apply IH; [simpl in L; lia|assumption].
Qed.

(** X9. When some entry of [probs] exceeds [p], [TopPDecoding(p).sample]
    masks every sorted position but the first, so it returns the first
    sorted index, which carries a greatest entry, for every uniform
    number in [0,1). *)
Theorem TopP_below_top_picks_top (p : Q) (probs : list Q) (u : Q) (j : nat) :
  Forall (fun x => 0 <= x) probs -> 0 < tensor_sum probs ->
  (j < length probs)%nat -> p < nth j probs 0 ->
  0 <= u -> u < 1 ->
  exists i0 rest,
    snd (torch_sort_desc probs) = i0 :: rest /\
    (forall j', (j' < length probs)%nat -> nth j' probs 0 <= nth i0 probs 0) /\
    TopP_mask p probs = Returned (false :: repeat true (length rest)) /\
    TopPDecoding_sample p probs u = Returned i0.
Proof.
  intros Hnn Hs Hj Hpj H0 H1.
  assert (Hne : probs <> []) by (intros ->; simpl in Hs; lra).
  destruct (@sort_nonempty probs Hne) as (v0 & i0 & r & E).
  destruct (@sort_head_max _ _ _ _ E) as (Hi0 & Hv0 & Hmax & Hnotin).
  assert (Hpv : p < v0) by (specialize (Hmax j Hj); lra).
  assert (Rnn : Forall (fun x => 0 <= x) (map fst r)).
  { apply Forall_forall. intros x Hx. apply in_map_iff in Hx.
    destruct Hx as ([v i] & <- & Hin). simpl.
    assert (Hin' : In (v, i) (enumerate probs)).
    { apply (Permutation_in _
               (Permutation_sym (ProbSort.Permuted_sort (enumerate probs)))).
      rewrite E. now right. }
    apply enumerate_In in Hin'. destruct Hin' as [Hi <-].
    now apply (proj1 (Forall_nth_iff _ probs) Hnn). }
  assert (F : Forall (fun b => b = true)
                (map (fun c => Qgt_bool c p)
                     (cumsum_from (0 + v0) (map fst r)))).
  { apply Forall_map.
    eapply Forall_impl; [|apply (cumsum_from_ge _ (0 + v0) Rnn)].
    cbv beta. intros c Hc. apply Qgt_bool_true. lra. }
  assert (Lm : length (map snd r) =
               length (map (fun c => Qgt_bool c p)
                           (cumsum_from (0 + v0) (map fst r))))
    by (now rewrite !length_map, cumsum_from_length, length_map).
  exists i0, (map snd r).
  split; [unfold torch_sort_desc; now rewrite E|].
  split; [rewrite Hv0; exact Hmax|]. split.
  - unfold TopP_mask, torch_sort_desc. rewrite E. simpl. do 2 f_equal.
    assert (A : forall m : list bool,
               Forall (fun b => b = true) m -> m = repeat true (length m)).
    { induction 1 as [|b m Hb Fm IH]; simpl; [reflexivity|].
      now rewrite Hb, <- IH. }
    rewrite (A _ F). now rewrite <- Lm.
  - unfold TopPDecoding_sample, TopP_dist.
    rewrite (@TopP_truncate_unfold p probs v0 i0 r E). simpl.
    rewrite (masked_select_all_true _ _ Lm F).
    destruct (keep_only_top probs v0 i0 r Hs E) as (d & -> & Hd).
    now apply multinomial_all_mass.
Qed.

Lemma TopP_below_top_picks_top_witness :
  exists i0 rest,
    snd (torch_sort_desc [3#10; 6#10; 1#10]) = i0 :: rest /\
    (forall j', (j' < 3)%nat ->
                nth j' [3#10; 6#10; 1#10] 0 <= nth i0 [3#10; 6#10; 1#10] 0) /\
    TopP_mask (1#2) [3#10; 6#10; 1#10] =
    Returned (false :: repeat true (length rest)) /\
    TopPDecoding_sample (1#2) [3#10; 6#10; 1#10] (9#10) = Returned i0.
Proof.
  apply (TopP_below_top_picks_top (1#2) [3#10; 6#10; 1#10] (9#10) 1%nat).
  - repeat constructor; discriminate.
  - reflexivity.
  - simpl. lia.
  - reflexivity.
  - lra.
  - lra.
Defined.

(** X10. With [k = 1], [TopKDecoding.sample] and
    [TopKTopPDecoding.sample] keep the first sorted index alone and return
    it for every uniform number in [0,1) and every [p]. *)
Theorem TopK_one_picks_top (probs : list Q) (u : Q) :
  Forall (fun x => 0 <= x) probs -> 0 < tensor_sum probs ->
  0 <= u -> u < 1 ->
  exists i0 rest,
    snd (torch_sort_desc probs) = i0 :: rest /\
    (forall j, (j < length probs)%nat -> nth j probs 0 <= nth i0 probs 0) /\
    TopKDecoding_sample 1 probs u = Returned i0 /\
    (forall p, TopKTopPDecoding_sample 1 p probs u = Returned i0).
Proof.
  intros Hnn Hs H0 H1.
  assert (Hne : probs <> []) by (intros ->; simpl in Hs; lra).
  destruct (@sort_nonempty probs Hne) as (v0 & i0 & r & E).
  destruct (@sort_head_max _ _ _ _ E) as (Hi0 & Hv0 & Hmax & Hnotin).
  destruct (keep_only_top probs v0 i0 r Hs E) as (d & Hd & Hmass).
  assert (D : TopK_dist 1 probs = Some d).
  { unfold TopK_dist, TopK_truncate, torch_sort_desc. rewrite E. exact Hd. }
  exists i0, (map snd r).
  split; [unfold torch_sort_desc; now rewrite E|].
  split; [rewrite Hv0; exact Hmax|]. split.
  - unfold TopKDecoding_sample. rewrite D. now apply multinomial_all_mass.
  - intro p. unfold TopKTopPDecoding_sample.
    rewrite TopKTopP_dist_unfold. unfold TopK_then_TopP_dist. rewrite D.
    destruct (@TopP_dist_all_mass p i0 d Hmass) as (d2 & -> & Hd2). simpl.
    now apply multinomial_all_mass.
Qed.

Lemma TopK_one_picks_top_witness :
  exists i0 rest,
    snd (torch_sort_desc [3#10; 6#10; 1#10]) = i0 :: rest /\
    (forall j, (j < 3)%nat ->
               nth j [3#10; 6#10; 1#10] 0 <= nth i0 [3#10; 6#10; 1#10] 0) /\
    TopKDecoding_sample 1 [3#10; 6#10; 1#10] (9#10) = Returned i0 /\
    (forall p, TopKTopPDecoding_sample 1 p [3#10; 6#10; 1#10] (9#10)
               = Returned i0).
Proof.
  apply (TopK_one_picks_top [3#10; 6#10; 1#10] (9#10)).
  - repeat constructor; discriminate.
  - reflexivity.
  - lra.
  - lra.
Defined.

(** ** The generation loop: bounds and exceptions *)

Section GenerationLoopBounds.

Variable Logits : Type.
Variable model : list Token -> Logits.
Variable softmax : Logits -> Q -> list Q.
Variable tokenizer_encode : string -> list Token.
Variable tokenizer_decode : list Token -> string.
Variable decoding_strategy : list Q -> Q -> outcome Token.
Variable eos_idx : Token.
Variable max_input_length : nat.
Variable rand : nat -> Q.
Variable max_steps : Z.
Variable temperature : Q.

Local Abbreviation loop :=
  (generate_loop model softmax decoding_strategy eos_idx max_input_length
                 rand max_steps temperature).
Local Abbreviation run :=
  (generate_run model softmax tokenizer_encode decoding_strategy eos_idx
                max_input_length rand max_steps temperature).
Local Abbreviation gen :=
  (generate model softmax tokenizer_encode tokenizer_decode decoding_strategy
            eos_idx max_input_length rand max_steps temperature).
Local Abbreviation invocations :=
  (model_invocations model softmax tokenizer_encode decoding_strategy eos_idx
     max_input_length rand max_steps temperature).
Local Abbreviation log_ok :=
  (consistent_log model softmax decoding_strategy eos_idx max_input_length
                  rand temperature).
Local Abbreviation added := (appended eos_idx).
Local Abbreviation over := (exceeds max_input_length).
Local Abbreviation recent := (most_recent max_input_length).

Lemma appended_tokens (P : Token -> Prop) (log : list step_log) :
  Forall (fun entry => forall t, sampled entry = Returned t -> P t) log ->
  Forall (fun t => P t /\ t <> eos_idx) (added log).
Proof.
  induction 1 as [|entry log H F IH]; simpl; [constructor|].
  destruct (sampled entry) as [t|ex]; [|exact IH].
  destruct (t =? eos_idx)%nat eqn:E; [exact IH|].
  simpl. constructor; [|exact IH].
  split; [now apply H|now apply Nat.eqb_neq].
Qed.

Lemma appended_length (log : list step_log) :
  (length (added log) <= length log)%nat.
Proof.
  unfold appended.
  induction log as [|entry log IH]; simpl; [lia|].
  destruct (sampled entry) as [t|ex]; [|simpl; lia].
  destruct (t =? eos_idx)%nat; simpl; lia.
Qed.

Lemma generate_run_length (prompt : string) (st : loop_state)
      (e : option exn) :
  run prompt = (st, e) -> (length (steps st) <= Z.to_nat max_steps)%nat.
Proof.
  intro H. unfold generate_run in H.
  apply generate_loop_log in H; [|simpl; now rewrite app_nil_r|simpl; lia].
  destruct H as (new & Hs & _ & _ & _ & Hlen). simpl in Hs. now subst new.
Qed.

(** In a consistent log every step before position [i] appended a token. *)
Lemma consistent_log_prefix (new : list step_log) :
  forall step record triggered i,
    log_ok step record triggered new ->
    (i < length new)%nat ->
    length (added (firstn i new)) = i.
Proof.
  induction new as [|head rest IH]; intros step record triggered i Hlog Hi.
  - simpl in Hi. lia.
  - destruct i as [|i]; [reflexivity|].
    destruct Hlog as (_ & _ & _ & _ & Hnext & Hrest).
    simpl in Hi. cbn [firstn].
    rewrite (appended_cons eos_idx head (firstn i rest)), length_app.
    rewrite (IH _ _ _ i Hrest) by lia.
    destruct Hnext as (t & Ht & Hne).
    { destruct rest; [simpl in Hi; lia|discriminate]. }
    simpl. rewrite Ht. apply Nat.eqb_neq in Hne. now rewrite Hne.
Qed.

(** X11. Whatever the model and the strategy do, a call of [generate]
    invokes the model at most [max_steps] times, and its final record is
    the encoded prompt followed by at most one token per invocation, none
    of them the end-of-sequence index. *)
Theorem generation_is_bounded (prompt : string) (st : loop_state)
        (e : option exn) :
  run prompt = (st, e) ->
  exists generated,
    concat (running_out st) = tokenizer_encode prompt ++ generated /\
    Forall (fun t => t <> eos_idx) generated /\
    (length generated <= length (invocations prompt))%nat /\
    (length (invocations prompt) <= Z.to_nat max_steps)%nat.
Proof.
  intro R.
  destruct (generate_run_log model softmax tokenizer_encode decoding_strategy
              eos_idx max_input_length rand max_steps temperature prompt R)
    as (_ & Hrec & _).
  assert (L := generate_run_length prompt st e R).
  exists (added (steps st)). unfold model_invocations. rewrite R. simpl.
  rewrite length_map. repeat split; trivial.
  - assert (F := appended_tokens (fun _ => True) (steps st)).
    eapply Forall_impl; [|apply F].
    + cbv beta. intros t [_ H]. exact H.
    + apply Forall_forall. auto.
  - apply appended_length.
Qed.

(** X12. The record grows by one token per step and the model never sees
    more than [max_input_length] tokens: step number [i] finds a record of
    the length of the encoded prompt plus [i], and its view has the smaller
    of that length and [max_input_length]. *)
Theorem view_length_is_clamped (prompt : string) (st : loop_state)
        (e : option exn) (i : nat) (entry : step_log) :
  run prompt = (st, e) ->
  nth_error (steps st) i = Some entry ->
  length (seen_input entry) = (length (tokenizer_encode prompt) + i)%nat /\
  length (view entry) =
    Nat.min (length (tokenizer_encode prompt) + i) max_input_length /\
  (length (view entry) <= max_input_length)%nat.
Proof.
  intros R Hnth.
  destruct (generate_run_log model softmax tokenizer_encode decoding_strategy
              eos_idx max_input_length rand max_steps temperature prompt R)
    as (Hlog & _ & _).
  destruct (consistent_log_entry model softmax decoding_strategy eos_idx
              max_input_length rand temperature _ _ _ _ i Hlog Hnth)
    as (Es & Ev & _ & _ & _).
  assert (Hi : (i < length (steps st))%nat)
    by (apply nth_error_Some; congruence).
  assert (Ls : length (seen_input entry) =
               (length (tokenizer_encode prompt) + i)%nat).
  { rewrite Es, length_app.
    now rewrite (consistent_log_prefix _ _ _ _ i Hlog Hi). }
  assert (Lv : length (view entry) =
               Nat.min (length (tokenizer_encode prompt) + i) max_input_length).
  { rewrite Ev. unfold exceeds, most_recent.
    destruct (max_input_length <? length (seen_input entry))%nat eqn:C.
    - apply Nat.ltb_lt in C. rewrite length_skipn. lia.
    - apply Nat.ltb_ge in C. lia. }
  repeat split; trivial. lia.
Qed.




(** A strategy that returns on everything the model predicts never makes
    the loop end with an exception. *)
Lemma loop_no_exception (fuel : nat) :
  (forall x n, exists t,
      decoding_strategy (softmax (model x) temperature) (rand n) = Returned t) ->
  forall st, snd (loop fuel st) = None.
Proof.
  intro Hret. induction fuel as [|fuel IH]; intro st; simpl; [reflexivity|].
  destruct (step_count st <? max_steps)%Z; [|reflexivity].
  match goal with
  | |- context [decoding_strategy (softmax (model ?x) temperature) (rand ?n)] =>
      destruct (Hret x n) as (t & Ht)
  end.
  rewrite Ht. destruct (t =? eos_idx)%nat; [reflexivity|]. apply IH.
Qed.

End GenerationLoopBounds.

Lemma generation_is_bounded_witness :
  exists generated,
    concat (running_out
              (fst (Stub.generate_run [1#10; 7#10; 1#5] GreedyDecoding 0%nat
                                      2%nat 3 1 "ab")))
    = Stub.encode "ab" ++ generated /\
    Forall (fun t => t <> 0%nat) generated /\
    (length generated <=
     length (model_invocations (Stub.model [1#10; 7#10; 1#5]) Stub.softmax
               Stub.encode (sample GreedyDecoding) 0%nat 2%nat Stub.rand 3 1
               "ab"))%nat /\
    (length (model_invocations (Stub.model [1#10; 7#10; 1#5]) Stub.softmax
               Stub.encode (sample GreedyDecoding) 0%nat 2%nat Stub.rand 3 1
               "ab") <= Z.to_nat 3)%nat.
Proof.
  apply (generation_is_bounded (list Q) (Stub.model [1#10; 7#10; 1#5])
           Stub.softmax Stub.encode (sample GreedyDecoding) 0%nat 2%nat
           Stub.rand 3%Z 1 "ab"%string _
           (snd (Stub.generate_run [1#10; 7#10; 1#5] GreedyDecoding 0%nat
                                   2%nat 3 1 "ab"))).
  reflexivity.
Defined.

Lemma view_length_is_clamped_witness :
  exists entry,
    nth_error
      (steps (fst (Stub.generate_run [1#10; 7#10; 1#5] GreedyDecoding 0%nat
                                     2%nat 3 1 "ab"))) 2 = Some entry /\
    length (seen_input entry) = (length (Stub.encode "ab") + 2)%nat /\
    length (view entry) = Nat.min (length (Stub.encode "ab") + 2) 2 /\
    (length (view entry) <= 2)%nat.
Proof.
  eexists. split; [reflexivity|].
  apply (view_length_is_clamped (list Q) (Stub.model [1#10; 7#10; 1#5])
           Stub.softmax Stub.encode (sample GreedyDecoding) 0%nat 2%nat
           Stub.rand 3%Z 1 "ab"%string
           (fst (Stub.generate_run [1#10; 7#10; 1#5] GreedyDecoding 0%nat
                                   2%nat 3 1 "ab"))
           (snd (Stub.generate_run [1#10; 7#10; 1#5] GreedyDecoding 0%nat
                                   2%nat 3 1 "ab")) 2%nat).
  - reflexivity.
  - reflexivity.
Defined.


(** ** The loop with particular strategies *)



Lemma generate_loop_rand_irrelevant
      (Logits : Type) (model : list Token -> Logits)
      (softmax : Logits -> Q -> list Q)
      (decoding_strategy : list Q -> Q -> outcome Token)
      (eos_idx : Token) (max_input_length : nat) (rand rand' : nat -> Q)
      (max_steps : Z) (temperature : Q) :
  (forall probs u u', decoding_strategy probs u = decoding_strategy probs u') ->
  forall fuel st,
    generate_loop model softmax decoding_strategy eos_idx max_input_length
                  rand max_steps temperature fuel st =
    generate_loop model softmax decoding_strategy eos_idx max_input_length
                  rand' max_steps temperature fuel st.
Proof.
  intro Hign. induction fuel as [|fuel IH]; intro st; simpl; [reflexivity|].
  destruct (step_count st <? max_steps)%Z; [|reflexivity].
  match goal with
  | |- context [decoding_strategy ?a (rand ?n)] =>
      rewrite (Hign a (rand n) (rand' n))
  end.
  destruct (decoding_strategy _ _) as [t|ex]; [|reflexivity].
  destruct (t =? eos_idx)%nat; [reflexivity|]. apply IH.
Qed.

(** With [GreedyDecoding] the whole run of [generate], its steps, its views
    and its result, is the same for every random source. *)
Lemma GreedyDecoding_ignores_random_source
        (Logits : Type) (model : list Token -> Logits)
        (softmax : Logits -> Q -> list Q)
        (tokenizer_encode : string -> list Token)
        (tokenizer_decode : list Token -> string)
        (eos_idx : Token) (max_input_length : nat) (rand rand' : nat -> Q)
        (max_steps : Z) (temperature : Q) (prompt : string) :
  generate_run model softmax tokenizer_encode (sample GreedyDecoding) eos_idx
               max_input_length rand max_steps temperature prompt =
  generate_run model softmax tokenizer_encode (sample GreedyDecoding) eos_idx
               max_input_length rand' max_steps temperature prompt /\
  generate model softmax tokenizer_encode tokenizer_decode
           (sample GreedyDecoding) eos_idx max_input_length rand max_steps
           temperature prompt =
  generate model softmax tokenizer_encode tokenizer_decode
           (sample GreedyDecoding) eos_idx max_input_length rand' max_steps
           temperature prompt.
Proof.
  assert (R : generate_run model softmax tokenizer_encode
                (sample GreedyDecoding) eos_idx max_input_length rand
                max_steps temperature prompt =
              generate_run model softmax tokenizer_encode
                (sample GreedyDecoding) eos_idx max_input_length rand'
                max_steps temperature prompt).
  { unfold generate_run. apply generate_loop_rand_irrelevant.
    intros probs u u'. reflexivity. }
  split; [exact R|]. unfold generate. now rewrite R.
Qed.

(** X15. When the model's output is always a tensor of length [V] without
    negative entries and with positive mass, the random source stays in
    [0,1) and the strategy has [k >= 1] (if it has a [k]), [generate]
    returns normally, and what it decodes is the encoded prompt followed by
    at most [max_steps] tokens, each an index below [V] other than the
    end-of-sequence index. *)
Theorem generate_returns_on_valid_model
        (Logits : Type) (model : list Token -> Logits)
        (softmax : Logits -> Q -> list Q)
        (tokenizer_encode : string -> list Token)
        (tokenizer_decode : list Token -> string)
        (s : DecodingStrategy) (V : nat)
        (eos_idx : Token) (max_input_length : nat) (rand : nat -> Q)
        (max_steps : Z) (temperature : Q) (prompt : string) :
  positive_k s ->
  (forall x, Forall (fun y => 0 <= y) (softmax (model x) temperature) /\
             0 < tensor_sum (softmax (model x) temperature) /\
             length (softmax (model x) temperature) = V) ->
  (forall n, 0 <= rand n /\ rand n < 1) ->
  exists generated,
    generate model softmax tokenizer_encode tokenizer_decode (sample s)
             eos_idx max_input_length rand max_steps temperature prompt
    = Returned (tokenizer_decode (tokenizer_encode prompt ++ generated)) /\
    Forall (fun t => (t < V)%nat /\ t <> eos_idx) generated /\
    (length generated <= Z.to_nat max_steps)%nat.
Proof.
  intros Hk Hmodel Hrand.
  destruct (generate_run model softmax tokenizer_encode (sample s) eos_idx
              max_input_length rand max_steps temperature prompt)
    as [st e] eqn:R.
  assert (He : e = None).
  { assert (Hret : forall x n, exists t,
                sample s (softmax (model x) temperature) (rand n) = Returned t).
    { intros x n. destruct (Hmodel x) as (Hnn & Hs & _).
      destruct (Hrand n) as [H0 H1]. now apply sample_total. }
    assert (N := loop_no_exception Logits model softmax (sample s) eos_idx
                   max_input_length rand max_steps temperature
                   (Z.to_nat max_steps) Hret
                   (initial_state tokenizer_encode prompt)).
    unfold generate_run in R. rewrite R in N. exact N. }
  subst e.
  destruct (generate_run_log model softmax tokenizer_encode (sample s)
              eos_idx max_input_length rand max_steps temperature prompt R)
    as (Hlog & Hrec & _).
  exists (appended eos_idx (steps st)). split; [|split].
  - unfold generate. rewrite R. now rewrite Hrec.
  - apply appended_tokens. apply Forall_forall. intros entry Hin t Ht.
    apply In_nth_error in Hin. destruct Hin as (i & Hnth).
    destruct (consistent_log_entry model softmax (sample s) eos_idx
                max_input_length rand temperature _ _ _ _ i Hlog Hnth)
      as (_ & _ & _ & _ & Esam).
    rewrite Ht in Esam. symmetry in Esam.
    destruct (Hmodel (view entry)) as (Hnn & _ & HV).
    destruct (Hrand (0 + i)%nat) as [H0 _].
    destruct (sample_support _ _ _ _ Hnn H0 Esam) as [Hlt _].
    now rewrite HV in Hlt.
  - apply Nat.le_trans with (length (steps st)).
    + apply appended_length.
    + apply (generate_run_length Logits model softmax tokenizer_encode
               (sample s) eos_idx max_input_length rand max_steps temperature
               prompt st None R).
Qed.

Lemma generate_returns_on_valid_model_witness :
  exists generated,
    Stub.generate [1#10; 7#10; 1#5] (TopKTopPDecoding 2 (3#4)) 0%nat 2%nat 3 1
                  "ab"
    = Returned (Stub.decode (Stub.encode "ab" ++ generated)) /\
    Forall (fun t => (t < 3)%nat /\ t <> 0%nat) generated /\
    (length generated <= Z.to_nat 3)%nat.
Proof.
  apply (generate_returns_on_valid_model (list Q)
           (Stub.model [1#10; 7#10; 1#5]) Stub.softmax Stub.encode Stub.decode
           (TopKTopPDecoding 2 (3#4)) 3%nat 0%nat 2%nat Stub.rand 3%Z 1
           "ab"%string).
  - simpl. lia.
  - intro x. split; [repeat constructor; discriminate|].
    split; reflexivity.
  - intro n. unfold Stub.rand. split; lra.
Defined.

(** ** Top-p decoding: the mass that survives *)

Lemma existsb_eqb_In (j : nat) (idxs : list nat) :
  existsb (Nat.eqb j) idxs = true <-> In j idxs.
Proof.
  rewrite existsb_exists. split.
  - intros (x & Hx & E). apply Nat.eqb_eq in E. now subst.
  - intro H. exists j. split; [assumption|apply Nat.eqb_refl].
Qed.

(** The sum of a tensor zeroed at the masked indices of a duplicate-free
    list of pairs, taken over those pairs, is the mass the mask leaves. *)
Lemma masked_fill_sum (l : list (Q * nat)) :
  forall (mask : list bool) (pre : list nat),
    length mask = length l ->
    NoDup (map snd l) ->
    (forall j, In j (map snd l) -> ~ In j pre) ->
    tensor_sum
      (map (fun xi : Q * nat =>
              if existsb (Nat.eqb (snd xi))
                         (pre ++ masked_select (map snd l) mask)
              then 0 else fst xi) l)
    == kept_mass l mask.
Proof.
  induction l as [|[v j] l IH]; intros mask pre L N Hpre; [reflexivity|].
  simpl in N. inversion N as [|? ? Hj N']; subst.
  destruct mask as [|b mask]; [discriminate|].
  simpl in L. injection L as L.
  cbn [map fst snd kept_mass tensor_sum fold_right].
  destruct b.
  - assert (C : masked_select (j :: map snd l) (true :: mask) =
                j :: masked_select (map snd l) mask) by reflexivity.
    rewrite C.
    assert (E : existsb (Nat.eqb j)
                  (pre ++ j :: masked_select (map snd l) mask) = true).
    { apply existsb_eqb_In. apply in_or_app. right. now left. }
    rewrite E.
    replace (pre ++ j :: masked_select (map snd l) mask)
      with ((pre ++ [j]) ++ masked_select (map snd l) mask)
      by (now rewrite <- app_assoc).
    fold (tensor_sum
            (map (fun xi : Q * nat =>
                    if existsb (Nat.eqb (snd xi))
                         ((pre ++ [j]) ++ masked_select (map snd l) mask)
                    then 0 else fst xi) l)).
    rewrite IH; [reflexivity|assumption|assumption|].
    intros i Hi Hin. apply in_app_or in Hin. destruct Hin as [Hin|[->|[]]].
    + apply (Hpre i); [now right|exact Hin].
    + contradiction.
  - rewrite masked_select_cons_false.
    assert (E : existsb (Nat.eqb j)
                  (pre ++ masked_select (map snd l) mask) = false).
    { destruct (existsb _ _) eqn:E; [|reflexivity].
      apply existsb_eqb_In in E. exfalso. apply in_app_or in E.
      destruct E as [E|E].
      - apply (Hpre j); [now left|exact E].
      - apply masked_select_incl in E. contradiction. }
    rewrite E.
    fold (tensor_sum
            (map (fun xi : Q * nat =>
                    if existsb (Nat.eqb (snd xi))
                         (pre ++ masked_select (map snd l) mask)
                    then 0 else fst xi) l)).
    rewrite IH; [reflexivity|assumption|assumption|].
    intros i Hi. apply Hpre. now right.
Qed.

(** With the mask of the cumulative sums, what is left stays within [p]
    once the running sum is within [p], and is nothing once it is not. *)
Lemma kept_mass_bound (p : Q) (l : list (Q * nat)) :
  Forall (fun x => 0 <= x) (map fst l) ->
  forall acc,
    let kept :=
      kept_mass l (map (fun c => Qgt_bool c p) (cumsum_from acc (map fst l)))
    in
    (p < acc -> kept == 0) /\ (acc <= p -> acc + kept <= p).
Proof.
  induction l as [|[x j] l IH]; intros F acc; simpl.
  - split; intro; lra.
  - simpl in F. inversion F as [|? ? Hx F']; subst.
    destruct (IH F' (acc + x)) as [IH1 IH2]. simpl in IH1, IH2.
    destruct (Qgt_bool (acc + x) p) eqn:E.
    + apply Qgt_bool_true in E. specialize (IH1 E). split; intro; lra.
    + apply Qgt_bool_false in E. specialize (IH2 E). split; intro; lra.
Qed.

(** X16. On a tensor without negative entries, the mass that survives the
    truncation of [TopPDecoding(p).sample] is at most [p] when the greatest
    entry is at most [p], and is the greatest entry alone when that entry
    exceeds [p]. *)
Theorem TopP_surviving_mass (p : Q) (probs t : list Q) :
  Forall (fun x => 0 <= x) probs ->
  TopP_truncate p probs = Returned t ->
  exists i0 rest,
    snd (torch_sort_desc probs) = i0 :: rest /\
    (forall j, (j < length probs)%nat -> nth j probs 0 <= nth i0 probs 0) /\
    nth i0 t 0 = nth i0 probs 0 /\
    (nth i0 probs 0 <= p -> tensor_sum t <= p) /\
    (p < nth i0 probs 0 -> tensor_sum t == nth i0 probs 0).
Proof.
  intros Hnn H.
  destruct (TopP_truncate_length p probs t H) as [Hne _].
  destruct (@sort_nonempty probs Hne) as (v0 & i0 & r & E).
  destruct (@sort_head_max _ _ _ _ E) as (Hi0 & Hv0 & Hmax & Hnotin).
  rewrite (@TopP_truncate_unfold p probs v0 i0 r E) in H.
  inversion H as [Ht]. clear H.
  set (mask := map (fun c => Qgt_bool c p)
                   (cumsum_from (0 + v0) (map fst r))) in *.
  set (idxs := masked_select (map snd r) mask) in *.
  assert (P := ProbSort.Permuted_sort (enumerate probs)). rewrite E in P.
  assert (N : NoDup (map snd r)).
  { assert (N0 := sorted_indices_NoDup probs).
    unfold torch_sort_desc in N0. rewrite E in N0. simpl in N0.
    now inversion N0. }
  assert (Rnn : Forall (fun x => 0 <= x) (map fst r)).
  { apply Forall_forall. intros x Hx. apply in_map_iff in Hx.
    destruct Hx as ([v i] & <- & Hin). simpl.
    assert (Hin' : In (v, i) (enumerate probs)).
    { apply (Permutation_in _ (Permutation_sym P)). now right. }
    apply enumerate_In in Hin'. destruct Hin' as [Hi <-].
    now apply (proj1 (Forall_nth_iff _ probs) Hnn). }
  assert (Hkept : nth i0 (index_fill_zero probs idxs) 0 = nth i0 probs 0).
  { apply index_fill_zero_kept; [assumption|].
    intro Hin. apply masked_select_incl in Hin. contradiction. }
  assert (S : tensor_sum (index_fill_zero probs idxs) == v0 + kept_mass r mask).
  { unfold index_fill_zero.
    rewrite (tensor_sum_perm
               (Permutation_map
                  (fun xi : Q * nat =>
                     if existsb (Nat.eqb (snd xi)) idxs then 0 else fst xi) P)).
    cbn [map tensor_sum fold_right fst snd].
    assert (E0 : existsb (Nat.eqb i0) idxs = false).
    { destruct (existsb (Nat.eqb i0) idxs) eqn:E0; [|reflexivity].
      apply existsb_eqb_In in E0. apply masked_select_incl in E0.
      contradiction. }
    rewrite E0.
    assert (Lm : length mask = length r).
    { unfold mask. now rewrite length_map, cumsum_from_length, length_map. }
    assert (M := masked_fill_sum r mask [] Lm N (fun j _ H => H)).
    simpl in M. fold idxs in M. unfold tensor_sum in M. rewrite M.
    reflexivity. }
  destruct (kept_mass_bound p r Rnn (0 + v0)) as [K1 K2].
  fold mask in K1, K2. cbv zeta in K1, K2.
  exists i0, (map snd r).
  split; [unfold torch_sort_desc; now rewrite E|].
  split; [rewrite Hv0; exact Hmax|].
  split; [exact Hkept|]. rewrite Hv0, S. split; intro Hc.
  - assert (A : 0 + v0 <= p) by lra. specialize (K2 A). lra.
  - assert (A : p < 0 + v0) by lra. specialize (K1 A). lra.
Qed.

Lemma TopP_surviving_mass_witness :
  exists i0 rest,
    snd (torch_sort_desc [1#2; 3#10; 1#5]) = i0 :: rest /\
    (forall j, (j < 3)%nat ->
               nth j [1#2; 3#10; 1#5] 0 <= nth i0 [1#2; 3#10; 1#5] 0) /\
    nth i0 [1#2; 0; 0] 0 = nth i0 [1#2; 3#10; 1#5] 0 /\
    (nth i0 [1#2; 3#10; 1#5] 0 <= 3#4 -> tensor_sum [1#2; 0; 0] <= 3#4) /\
    (3#4 < nth i0 [1#2; 3#10; 1#5] 0 ->
     tensor_sum [1#2; 0; 0] == nth i0 [1#2; 3#10; 1#5] 0).
Proof.
  apply (TopP_surviving_mass (3#4) [1#2; 3#10; 1#5] [1#2; 0; 0]).
  - repeat constructor; discriminate.
  - reflexivity.
Defined.

(** ** Strategies that suppress nothing *)




(** ** The step of the warning *)

Section WarningStep.

Variable Logits : Type.
Variable model : list Token -> Logits.
Variable softmax : Logits -> Q -> list Q.
Variable tokenizer_encode : string -> list Token.
Variable decoding_strategy : list Q -> Q -> outcome Token.
Variable eos_idx : Token.
Variable max_input_length : nat.
Variable rand : nat -> Q.
Variable max_steps : Z.
Variable temperature : Q.

Local Abbreviation run :=
  (generate_run model softmax tokenizer_encode decoding_strategy eos_idx
                max_input_length rand max_steps temperature).
Local Abbreviation warns :=
  (warnings model softmax tokenizer_encode decoding_strategy eos_idx
            max_input_length rand max_steps temperature).

Lemma step_record_length (prompt : string) (st : loop_state) (e : option exn)
      (i : nat) (entry : step_log) :
  run prompt = (st, e) ->
  nth_error (steps st) i = Some entry ->
  length (seen_input entry) = (length (tokenizer_encode prompt) + i)%nat /\
  warned entry =
    exceeds max_input_length (seen_input entry) &&
    negb (existsb (fun e' => exceeds max_input_length (seen_input e'))
                  (firstn i (steps st))).
Proof.
  intros R Hnth.
  destruct (generate_run_log model softmax tokenizer_encode decoding_strategy
              eos_idx max_input_length rand max_steps temperature prompt R)
    as (Hlog & _ & _).
  destruct (consistent_log_entry model softmax decoding_strategy eos_idx
              max_input_length rand temperature _ _ _ _ i Hlog Hnth)
    as (Es & _ & Ew & _ & _).
  assert (Hi : (i < length (steps st))%nat)
    by (apply nth_error_Some; congruence).
  split; [|exact Ew].
  rewrite Es, length_app.
  now rewrite (consistent_log_prefix Logits model softmax decoding_strategy
                 eos_idx max_input_length rand temperature _ _ _ _ i Hlog Hi).
Qed.

(** X18. The warning of a call is issued at step number
    [max_input_length + 1 - V0] (at step 0 when that is not positive),
    where [V0] is the length of the encoded prompt: when the run reaches
    that step the warnings of the call are that step alone, and when it
    does not there is none. *)
Theorem warning_step (prompt : string) (st : loop_state) (e : option exn) :
  run prompt = (st, e) ->
  let i0 := (max_input_length + 1 - length (tokenizer_encode prompt))%nat in
  match nth_error (steps st) i0 with
  | Some entry => warns prompt = [entry]
  | None => warns prompt = []
  end.
Proof.
  intros R i0. unfold warnings. rewrite R. simpl.
  assert (Hlow : forall j entry,
             nth_error (steps st) j = Some entry -> (j < i0)%nat ->
             exceeds max_input_length (seen_input entry) = false).
  { intros j entry Hnth Hj.
    destruct (step_record_length prompt st e j entry R Hnth) as [L _].
    unfold exceeds. apply Nat.ltb_ge. unfold i0 in Hj. lia. }
  destruct (nth_error (steps st) i0) as [entry|] eqn:Hnth.
  - destruct (step_record_length prompt st e i0 entry R Hnth) as [L W].
    assert (Hw : warned entry = true).
    { rewrite W. apply andb_true_iff. split.
      - unfold exceeds. apply Nat.ltb_lt. unfold i0 in L. lia.
      - apply negb_true_iff. apply existsb_false_Forall.
        apply Forall_forall. intros e' Hin.
        apply In_nth_error in Hin. destruct Hin as (j & Hj).
        assert (Hlt : (j < i0)%nat).
        { assert (H' : nth_error (firstn i0 (steps st)) j <> None)
            by congruence.
          apply nth_error_Some in H'. rewrite length_firstn in H'. lia. }
        rewrite nth_error_firstn in Hj.
        destruct (Nat.ltb_spec j i0) as [_|Hge]; [|lia].
        exact (Hlow j e' Hj Hlt). }
    assert (Hin : In entry (filter warned (steps st))).
    { apply filter_In. split; [|exact Hw]. exact (nth_error_In _ _ Hnth). }
    destruct (generate_run_log model softmax tokenizer_encode
                decoding_strategy eos_idx max_input_length rand max_steps
                temperature prompt R) as (Hlog & _ & _).
    assert (Hone := consistent_log_warnings model softmax decoding_strategy
                      eos_idx max_input_length rand temperature _ _ _ _ Hlog).
    simpl in Hone.
    destruct (filter warned (steps st)) as [|a [|b l]];
      [contradiction| |simpl in Hone; lia].
    destruct Hin as [->|[]]. reflexivity.
  - apply nth_error_None in Hnth.
    assert (F : Forall (fun entry => warned entry = false) (steps st)).
    { apply Forall_forall. intros entry Hin.
      apply In_nth_error in Hin. destruct Hin as (j & Hj).
      assert (Hlt : (j < length (steps st))%nat)
        by (apply nth_error_Some; congruence).
      destruct (step_record_length prompt st e j entry R Hj) as [_ W].
      rewrite W, (Hlow j entry Hj ltac:(lia)). reflexivity. }
    clear - F. induction F as [|a l Ha F IH]; simpl; [reflexivity|].
    now rewrite Ha.
Qed.

End WarningStep.

Lemma warning_step_witness :
  warnings (Stub.model [1#10; 7#10; 1#5]) Stub.softmax Stub.encode
           (sample GreedyDecoding) 0%nat 3%nat Stub.rand 4 1 "ab"
  = [{| seen_input := [97; 98; 1; 1]%nat; warned := true;
        view := [98; 1; 1]%nat; sampled := Returned 1%nat |}].
Proof.
  exact (warning_step (list Q) (Stub.model [1#10; 7#10; 1#5]) Stub.softmax
           Stub.encode (sample GreedyDecoding) 0%nat 3%nat Stub.rand 4%Z 1
           "ab"%string _ _ eq_refl).
Defined.
